(** * setsight: the lead-sheet parser of [src/parse.py]

    A shallow embedding of the heuristic parser that turns the text dump of a
    lead sheet into ChordPro, and the properties of it that the specification
    states.

    Python strings are sequences of Unicode code points, and the source relies
    on that (the chord grammar names the code points of the sharp and flat
    signs, columns are counted in code points), so a string is a list of code
    points here.  Exceptions are values of an error monad. *)

From Stdlib Require Import String Ascii.
From Stdlib Require Import List NArith ZArith Bool Lia.
Import ListNotations.

Set Implicit Arguments.

(** ** The Python runtime the parser uses *)

Module Py.

Definition char := N.
Definition str := list char.

(** An ASCII character and an ASCII literal as code points. *)
Definition ch (a : ascii) : char := N_of_ascii a.

Fixpoint txt (s : string) : str :=
  match s with
  | EmptyString => []
  | String a r => ch a :: txt r
  end.

Definition SPACE : char := 32%N.
Definition TAB : char := 9%N.
Definition LF : char := 10%N.
Definition CR : char := 13%N.

Fixpoint str_eqb (a b : str) : bool :=
  match a, b with
  | [], [] => true
  | x :: a', y :: b' => N.eqb x y && str_eqb a' b'
  | _, _ => false
  end.

(** Exceptions and results. *)
Inductive exn : Type :=
| Exception (msg : str)
| IndexError
| TypeError
| AttributeError.

Inductive result (A : Type) : Type :=
| Ok (a : A)
| Raise (e : exn).
Arguments Ok {A} a.
Arguments Raise {A} e.

Definition bind {A B} (m : result A) (f : A -> result B) : result B :=
  match m with
  | Ok a => f a
  | Raise e => Raise e
  end.

Notation "x <- m ;; k" := (bind m (fun x => k))
  (at level 61, m at next level, right associativity).

(** Truthiness of a string and of a string-or-None. *)
Definition nonempty (s : str) : bool :=
  match s with [] => false | _ :: _ => true end.

Definition truthy (o : option str) : bool :=
  match o with Some s => nonempty s | None => false end.

(** Membership of a code point in a table of inclusive ranges. *)
Definition in_ranges (tbl : list (N * N)) (c : char) : bool :=
  existsb (fun r => N.leb (fst r) c && N.leb c (snd r)) tbl.

(** [str.isspace] of one character; the same set is [\s] of [re] and what
    [str.strip] removes. *)
Definition isspace (c : char) : bool :=
  in_ranges [(9, 13); (28, 32); (133, 133); (160, 160); (5760, 5760);
             (8192, 8202); (8232, 8233); (8239, 8239); (8287, 8287);
             (12288, 12288)]%N c.

(** [\d] of [re] on a [str] pattern: the decimal digits of Unicode (general
    category Nd; Unicode 14.0, the database of CPython 3.11). *)
Definition isdecimal (c : char) : bool :=
  in_ranges
    [(48, 57); (1632, 1641); (1776, 1785); (1984, 1993); (2406, 2415);
     (2534, 2543); (2662, 2671); (2790, 2799); (2918, 2927); (3046, 3055);
     (3174, 3183); (3302, 3311); (3430, 3439); (3558, 3567); (3664, 3673);
     (3792, 3801); (3872, 3881); (4160, 4169); (4240, 4249); (6112, 6121);
     (6160, 6169); (6470, 6479); (6608, 6617); (6784, 6793); (6800, 6809);
     (6992, 7001); (7088, 7097); (7232, 7241); (7248, 7257);
     (42528, 42537); (43216, 43225); (43264, 43273); (43472, 43481);
     (43504, 43513); (43600, 43609); (44016, 44025); (65296, 65305);
     (66720, 66729); (68912, 68921); (69734, 69743); (69872, 69881);
     (69942, 69951); (70096, 70105); (70384, 70393); (70736, 70745);
     (70864, 70873); (71248, 71257); (71360, 71369); (71472, 71481);
     (71904, 71913); (72016, 72025); (72784, 72793); (73040, 73049);
     (73120, 73129); (92768, 92777); (92864, 92873); (93008, 93017);
     (120782, 120831); (123200, 123209); (123632, 123641);
     (125264, 125273); (130032, 130041)]%N c.

(** One character of [str.isdigit]: numeric type Digit or Decimal (same
    database). *)
Definition isdigit_char (c : char) : bool :=
  in_ranges
    [(48, 57); (178, 179); (185, 185); (1632, 1641); (1776, 1785);
     (1984, 1993); (2406, 2415); (2534, 2543); (2662, 2671); (2790, 2799);
     (2918, 2927); (3046, 3055); (3174, 3183); (3302, 3311); (3430, 3439);
     (3558, 3567); (3664, 3673); (3792, 3801); (3872, 3881); (4160, 4169);
     (4240, 4249); (4969, 4977); (6112, 6121); (6160, 6169); (6470, 6479);
     (6608, 6618); (6784, 6793); (6800, 6809); (6992, 7001); (7088, 7097);
     (7232, 7241); (7248, 7257); (8304, 8304); (8308, 8313); (8320, 8329);
     (9312, 9320); (9332, 9340); (9352, 9360); (9450, 9450); (9461, 9469);
     (9471, 9471); (10102, 10110); (10112, 10120); (10122, 10130);
     (42528, 42537); (43216, 43225); (43264, 43273); (43472, 43481);
     (43504, 43513); (43600, 43609); (44016, 44025); (65296, 65305);
     (66720, 66729); (68160, 68163); (68912, 68921); (69216, 69224);
     (69714, 69722); (69734, 69743); (69872, 69881); (69942, 69951);
     (70096, 70105); (70384, 70393); (70736, 70745); (70864, 70873);
     (71248, 71257); (71360, 71369); (71472, 71481); (71904, 71913);
     (72016, 72025); (72784, 72793); (73040, 73049); (73120, 73129);
     (92768, 92777); (92864, 92873); (93008, 93017); (120782, 120831);
     (123200, 123209); (123632, 123641); (125264, 125273);
     (127232, 127242); (130032, 130041)]%N c.

(** [s.isdigit()]: every character is a digit and there is at least one. *)
Definition isdigit (s : str) : bool := nonempty s && forallb isdigit_char s.

(** [s.lstrip()], [s.rstrip()], [s.strip()]. *)
Fixpoint lstrip (s : str) : str :=
  match s with
  | c :: r => if isspace c then lstrip r else s
  | [] => []
  end.

Definition rstrip (s : str) : str := rev (lstrip (rev s)).

Definition strip (s : str) : str := rstrip (lstrip s).

(** [s.startswith(p)] and [s.endswith(p)]. *)
Fixpoint startswith (s p : str) {struct p} : bool :=
  match p, s with
  | [], _ => true
  | x :: p', y :: s' => N.eqb x y && startswith s' p'
  | _ :: _, [] => false
  end.

Definition endswith (s p : str) : bool := startswith (rev s) (rev p).

(** [s.find(sub)]: the least index at which [sub] occurs, or [-1]. *)
Fixpoint find_from (s sub : str) (i : Z) : Z :=
  if startswith s sub then i
  else match s with
       | [] => (-1)%Z
       | _ :: r => find_from r sub (i + 1)%Z
       end.

Definition find (s sub : str) : Z := find_from s sub 0%Z.

(** The slices [s[i:]] and [s[:i]]. *)
Definition slice_from (s : str) (i : Z) : str :=
  if (i <? 0)%Z then skipn (length s - Z.to_nat (- i)) s
  else skipn (Z.to_nat i) s.

Definition slice_to (s : str) (i : Z) : str :=
  if (i <? 0)%Z then firstn (length s - Z.to_nat (- i)) s
  else firstn (Z.to_nat i) s.

Definition len (s : str) : Z := Z.of_nat (length s).

(** [s[0]] and [s[-1]]. *)
Definition getitem_first (s : str) : result char :=
  match s with
  | c :: _ => Ok c
  | [] => Raise IndexError
  end.

Definition getitem_last (s : str) : result char :=
  match rev s with
  | c :: _ => Ok c
  | [] => Raise IndexError
  end.

(** [''.join(parts)]. *)
Definition join (parts : list str) : str := concat parts.

End Py.
Import Py.

(** ** Regular expressions, as [re] runs them

    A backtracking matcher in continuation-passing style: alternatives are
    tried left to right, [?] and [*] are greedy, and a failure of the
    continuation makes the matcher fall back to the next choice.  Repetition
    occurs in the source only over single characters and character classes,
    so [Star] takes a class and the matcher is structurally recursive. *)

Module Regex.

Inductive t : Type :=
| Eps
| Chr (p : char -> bool)
| Cat (a b : t)
| Alt (a b : t)
| Opt (a : t)
| Star (p : char -> bool)
| Group (n : nat) (a : t)
| Bol
| Eol.

(** Where the matcher stands: [pos] characters consumed, [rest] left to read,
    and the text of the groups closed so far (latest first). *)
Record cursor : Type := Cursor {
  pos : nat;
  rest : str;
  groups : list (nat * str)
}.

Fixpoint star (p : char -> bool) (n : nat) (s : str) (g : list (nat * str))
    (k : cursor -> option cursor) : option cursor :=
  match s with
  | x :: s' =>
      if p x then
        match star p (S n) s' g k with
        | Some r => Some r
        | None => k (Cursor n s g)
        end
      else k (Cursor n s g)
  | [] => k (Cursor n [] g)
  end.

Fixpoint run (r : t) (c : cursor) (k : cursor -> option cursor)
    : option cursor :=
  match r with
  | Eps => k c
  | Chr p =>
      match rest c with
      | x :: s' => if p x then k (Cursor (S (pos c)) s' (groups c)) else None
      | [] => None
      end
  | Cat a b => run a c (fun c' => run b c' k)
  | Alt a b =>
      match run a c k with
      | Some r => Some r
      | None => run b c k
      end
  | Opt a =>
      match run a c k with
      | Some r => Some r
      | None => k c
      end
  | Star p => star p (pos c) (rest c) (groups c) k
  | Group n a =>
      run a c (fun c' =>
        k (Cursor (pos c') (rest c')
                  ((n, firstn (pos c' - pos c) (rest c)) :: groups c')))
  | Bol => if Nat.eqb (pos c) 0 then k c else None
  | Eol =>
      match rest c with
      | [] => k c
      | [x] => if N.eqb x LF then k c else None
      | _ => None
      end
  end.

(** A match object: its span and its groups. *)
Record match_object : Type := Match {
  span_start : nat;
  span_end : nat;
  captured : list (nat * str)
}.

(** [m.group(n)], [None] when the group took no part in the match. *)
Fixpoint group_of (g : list (nat * str)) (n : nat) : option str :=
  match g with
  | [] => None
  | (n', s) :: g' => if Nat.eqb n' n then Some s else group_of g' n
  end.

Definition group (m : match_object) (n : nat) : option str :=
  group_of (captured m) n.

Definition match_at (r : t) (i : nat) (s : str) : option match_object :=
  match run r (Cursor i s []) Some with
  | Some c => Some (Match i (pos c) (groups c))
  | None => None
  end.

(** [r.match(s)]: a match that starts at the first character. *)
Definition re_match (r : t) (s : str) : option match_object := match_at r 0 s.

(** [r.search(s)]: the match at the least start position that has one. *)
Fixpoint search_from (r : t) (i : nat) (s : str) : option match_object :=
  match match_at r i s with
  | Some m => Some m
  | None =>
      match s with
      | [] => None
      | _ :: s' => search_from r (S i) s'
      end
  end.

Definition re_search (r : t) (s : str) : option match_object :=
  search_from r 0 s.

(** Building blocks of patterns. *)
Fixpoint cat (l : list t) : t :=
  match l with
  | [] => Eps
  | [a] => a
  | a :: l' => Cat a (cat l')
  end.

Fixpoint alt (l : list t) : t :=
  match l with
  | [] => Chr (fun _ => false)
  | [a] => a
  | a :: l' => Alt a (alt l')
  end.

Definition Plus (p : char -> bool) : t := Cat (Chr p) (Star p).

(** A literal, case-sensitive. *)
Definition lit (s : string) : t := cat (map (fun x => Chr (N.eqb x)) (txt s)).

(** A class given by its members. *)
Definition one_of (s : str) : char -> bool := fun x => existsb (N.eqb x) s.

Definition between (lo hi : ascii) : char -> bool :=
  fun x => N.leb (ch lo) x && N.leb x (ch hi).

(** [re.IGNORECASE] on a [str] pattern compares lower-cased characters; next
    to the ASCII letters, U+0130 and U+0131 count as [i], U+017F as [s] and
    U+212A (the Kelvin sign) as [k]. *)
Definition lower (c : char) : char :=
  if N.leb 65 c && N.leb c 90 then (c + 32)%N
  else if N.eqb c 304 || N.eqb c 305 then 105%N
  else if N.eqb c 383 then 115%N
  else if N.eqb c 8490 then 107%N
  else c.

Definition upper (c : char) : char :=
  if N.leb 97 c && N.leb c 122 then (c - 32)%N else c.

Definition lit_i (s : string) : t :=
  cat (map (fun x => Chr (fun y => N.eqb (lower y) (lower x))) (txt s)).

Definition class_i (p : char -> bool) : char -> bool :=
  fun x => p (lower x) || p (upper (lower x)).

End Regex.

(** ** The patterns of [class RE] *)

Module RE.
Import Regex.

Definition SHARP : char := 9839%N.   (* U+266F *)
Definition FLAT : char := 9837%N.    (* U+266D *)
Definition OSLASH : char := 248%N.   (* U+00F8 *)
Definition DEGREE : char := 176%N.   (* U+00B0 *)

Definition dash_or_colon : char -> bool := one_of (txt "-:").

(** [key\s+[-:]\s+([A-G][#b]?)], ignoring case. *)
Definition KEY : t :=
  cat [lit_i "key"; Plus isspace; Chr (class_i dash_or_colon); Plus isspace;
       Group 1 (cat [Chr (class_i (between "A" "G"));
                     Opt (Chr (class_i (one_of (txt "#b"))))])].

(** [time\s+[-:]\s+(\d+/\d+)], ignoring case. *)
Definition TIME : t :=
  cat [lit_i "time"; Plus isspace; Chr (class_i dash_or_colon); Plus isspace;
       Group 1 (cat [Plus isdecimal; lit_i "/"; Plus isdecimal])].

(** [tempo\s+[-:]\s+(\d+)], ignoring case. *)
Definition TEMPO : t :=
  cat [lit_i "tempo"; Plus isspace; Chr (class_i dash_or_colon); Plus isspace;
       Group 1 (Plus isdecimal)].

(** [(verse|chorus|bridge|pre-chorus|instrumental|interlude)], ignoring
    case (the pattern is verbose, its white space does not count). *)
Definition SECTION : t :=
  Group 1 (alt [lit_i "verse"; lit_i "chorus"; lit_i "bridge";
                lit_i "pre-chorus"; lit_i "instrumental"; lit_i "interlude"]).

(** The chord grammar.  The pattern is one alternation at top level: the
    left branch is [^] and the group [nochords], the right branch is the
    groups from [note] to [bass] and [$]. *)
Definition accidental : char -> bool :=
  fun x => N.eqb x SHARP || N.eqb x FLAT || one_of (txt "b#") x.

Definition root : char -> bool :=
  fun x => between "A" "J" x || N.eqb x (ch "Z").

Definition nochords : t :=
  Group 1 (cat [Chr (one_of (txt "Nn")); Opt (lit "."); Chr (one_of (txt "Cc"));
                Opt (lit ".")]).

Definition note : t := Group 2 (cat [Chr root; Opt (Chr accidental)]).

Definition third : t :=
  Group 3 (alt [lit "mM"; lit "min"; lit "MIN"; lit "Min"; lit "maj";
                lit "MAJ"; lit "Maj"; lit "m"; lit "M"]).

Definition fifth : t :=
  Group 4 (alt [lit "aug"; lit "AUG"; lit "dim"; lit "DIM"; lit "+";
                Chr (N.eqb OSLASH); Chr (N.eqb DEGREE)]).

Definition number : t :=
  Group 5 (cat [Opt (lit "("); Opt (alt [lit "dom"; lit "DOM"]);
                Plus isdecimal; Opt (lit ")")]).

Definition subtraction : t :=
  Group 6 (cat [Opt (lit "("); lit "no3"; Opt (lit "r"); Opt (lit "d");
                Opt (lit ")")]).

Definition altered : t :=
  Group 7 (cat [Chr (fun x => N.eqb x SHARP || N.eqb x FLAT
                              || one_of (txt "b#-+") x);
                Plus isdecimal]).

Definition suspension : t :=
  Group 8 (cat [alt [lit "sus"; lit "SUS"]; Star isdecimal]).

Definition addition : t :=
  Group 9 (cat [alt [lit "add"; lit "ADD"; lit "/"]; Plus isdecimal]).

Definition bass : t :=
  Group 10 (cat [lit "/"; Chr root; Opt (Chr accidental)]).

Definition CHORD : t :=
  Alt (Cat Bol nochords)
      (cat [note; Opt third; Opt fifth; Opt number; Opt subtraction;
            Opt altered; Opt suspension; Opt addition; Opt bass; Eol]).

(** [CCLI ?Song ?# ?(\d+)], ignoring case.  ([CHORD_SPLIT], the last
    pattern of the class, is used nowhere in the parser and is left out.) *)
Definition CCLI : t :=
  cat [lit_i "CCLI"; Opt (lit " "); lit_i "Song"; Opt (lit " "); lit "#";
       Opt (lit " "); Group 1 (Plus isdecimal)].

End RE.

(** ** [tokenise_chords] *)

(** The dictionary [brackets]: the closer of an opening bracket. *)
Definition brackets (c : char) : option char :=
  if N.eqb c (ch "(") then Some (ch ")")
  else if N.eqb c (ch "[") then Some (ch "]")
  else if N.eqb c (ch "{") then Some (ch "}")
  else None.

(** [c in '| \t\n\r']. *)
Definition is_separator (c : char) : bool :=
  Regex.one_of [ch "|"; SPACE; TAB; LF; CR] c.

(** [if chord: chords.append(''.join(chord))]. *)
Definition flush_chord (chords : list str) (chord : str) : list str :=
  if nonempty chord then chords ++ [chord] else chords.

(** The loop over the characters of the line, with the three variables it
    updates: the tokens so far, the token being read and the closer waited
    for. *)
Fixpoint tokenise_loop (chord_line : str) (chords : list str) (chord : str)
    (closer : option char) : list str :=
  match chord_line with
  | [] => flush_chord chords chord
  | c :: more =>
      match closer with
      | Some cl =>
          tokenise_loop more chords (chord ++ [c])
                        (if N.eqb c cl then None else Some cl)
      | None =>
          match brackets c with
          | Some cl => tokenise_loop more chords (chord ++ [c]) (Some cl)
          | None =>
              if is_separator c then
                let chords1 := flush_chord chords chord in
                let chords2 :=
                  if N.eqb c (ch "|") then chords1 ++ [[ch "|"]] else chords1 in
                tokenise_loop more chords2 [] None
              else tokenise_loop more chords (chord ++ [c]) None
          end
      end
  end.

Definition tokenise_chords (chord_line : str) : list str :=
  tokenise_loop chord_line [] [] None.

(** ** [chord_indicies] *)

(** What a generator does when it is run to its end: it yields values, then
    stops or raises. *)
Inductive gen (A : Type) : Type :=
| Stop
| Yield (a : A) (g : gen A)
| Throw (e : exn).
Arguments Stop {A}.
Arguments Yield {A} a g.
Arguments Throw {A} e.

Fixpoint yielded {A} (g : gen A) : list A :=
  match g with
  | Yield a g' => a :: yielded g'
  | _ => []
  end.

Fixpoint raises {A} (g : gen A) : bool :=
  match g with
  | Stop => false
  | Yield _ g' => raises g'
  | Throw _ => true
  end.

Definition could_not_find (chord chord_line : str) : exn :=
  Exception (txt "could not find " ++ chord ++ txt " in " ++ chord_line).

Fixpoint chord_indicies_loop (chord_line : str) (i : Z) (tokens : list str)
    : gen (Z * str) :=
  match tokens with
  | [] => Stop
  | chord :: more =>
      let search_index := find (slice_from chord_line i) chord in
      if Z.eqb search_index (-1) then Throw (could_not_find chord chord_line)
      else
        let chord_index := (i + search_index)%Z in
        Yield (chord_index, chord)
              (chord_indicies_loop chord_line (chord_index + len chord) more)
  end.

Definition chord_indicies (chord_line : str) : gen (Z * str) :=
  chord_indicies_loop chord_line 0 (tokenise_chords chord_line).

(** ** [is_chord_line] *)

Definition chord_like (t : str) : result bool :=
  if str_eqb t (txt "|") then Ok true
  else
    c0 <- getitem_first t ;;
    if N.eqb c0 (ch "(") then Ok true
    else
      c1 <- getitem_last t ;;
      if N.eqb c1 (ch ")") then Ok true
      else
        match Regex.re_match RE.CHORD t with
        | Some _ => Ok true
        | None => Ok false
        end.

Fixpoint count_tokens (tokens : list str) (chords not_chords : nat)
    : result (nat * nat) :=
  match tokens with
  | [] => Ok (chords, not_chords)
  | t :: more =>
      b <- chord_like t ;;
      if b then count_tokens more (chords + 1) not_chords
      else count_tokens more chords (not_chords + 1)
  end.

Definition is_chord_line (tokens : list str) : result bool :=
  n <- count_tokens tokens 0 0 ;;
  Ok (Nat.ltb (snd n) (fst n)).

(** ** [fix_superscript_line] *)

(** [itertools.zip_longest]: the shorter string is continued with [None]. *)
Fixpoint zip_longest (a b : str) : list (option char * option char) :=
  match a, b with
  | [], [] => []
  | x :: a', [] => (Some x, None) :: zip_longest a' []
  | [], y :: b' => (None, Some y) :: map (fun z => (None, Some z)) b'
  | x :: a', y :: b' => (Some x, Some y) :: zip_longest a' b'
  end.

(** What one column appends to [out]; an element is a character or [None]. *)
Definition superscript_column (sc : option char * option char)
    : list (option char) :=
  let (s, c) := sc in
  match s with
  | None => [c]
  | Some s' =>
      if N.eqb s' SPACE then [c]
      else
        match c with
        | Some c' => if N.eqb c' SPACE then [s] else [s; c]
        | None => [s; c]
        end
  end.

(** [''.join(out)] on a list that may hold [None]: a [TypeError] then. *)
Fixpoint join_items (out : list (option char)) : result str :=
  match out with
  | [] => Ok []
  | Some x :: more => r <- join_items more ;; Ok (x :: r)
  | None :: _ => Raise TypeError
  end.

Definition fix_superscript_line (superscript chords : str) : result str :=
  join_items (flat_map superscript_column (zip_longest superscript chords)).

(** ** [chordpro_line] *)

(** [next] of [itertools.chain(chord_indicies(chord_line),
    itertools.repeat((-1, None)))]. *)
Definition next_chord (chord_iter : gen (Z * str))
    : result ((Z * option str) * gen (Z * str)) :=
  match chord_iter with
  | Yield (index, chord) g => Ok ((index, Some chord), g)
  | Stop => Ok (((-1)%Z, None), Stop)
  | Throw e => Raise e
  end.

(** [enumerate(itertools.chain(lyric_line, itertools.repeat(None)))]: the
    next number and the characters not yet handed out. *)
Record line_iter : Type := LineIter {
  count : Z;
  chars : str
}.

Definition next_char (it : line_iter) : (Z * option char) * line_iter :=
  match chars it with
  | c :: r => ((count it, Some c), LineIter (count it + 1) r)
  | [] => ((count it, None), LineIter (count it + 1) [])
  end.

Definition is_char (c : option char) (x : char) : bool :=
  match c with
  | Some y => N.eqb y x
  | None => false
  end.

(** [while char == ' ' and skipped < len(chord)]; [budget] is
    [len(chord) - skipped]. *)
Fixpoint skip_spaces (budget : nat) (it : line_iter) (i : Z)
    (char last_char : option char)
    : line_iter * Z * option Py.char * option Py.char :=
  match budget with
  | O => (it, i, char, last_char)
  | S b =>
      if is_char char SPACE then
        let '((i', char'), it') := next_char it in
        skip_spaces b it' i' char' char
      else (it, i, char, last_char)
  end.

(** [output and output[-1][-1] == ']']. *)
Definition ends_with_chord (output : list str) : result bool :=
  match rev output with
  | [] => Ok false
  | s :: _ => c <- getitem_last s ;; Ok (N.eqb c (ch "]"))
  end.

(** What the loop appends for the chord at the current column. *)
Definition emit_chord (output : list str) (chord : str)
    (char last_char : option char) : result (list str) :=
  if startswith chord (txt "(") && endswith chord (txt ")") then
    Ok (output ++ [txt "{comment:" ++ chord ++ txt "}"])
  else
    after_chord <- ends_with_chord output ;;
    let output1 :=
      if after_chord then output ++ [[SPACE]]
      else if is_char char SPACE && negb (is_char last_char SPACE)
           then output ++ [[SPACE]]
           else output in
    Ok (output1 ++ [txt "[" ++ chord ++ txt "]"]).

(** The [while chord or char] loop.  It has no bound of its own in the
    source, so the model counts its turns down from [fuel]; [None] is a run
    that was cut short. *)
Fixpoint merge_loop (fuel : nat) (chord_iter : gen (Z * str))
    (it : line_iter) (output : list str) (index : Z) (chord : option str)
    (i : Z) (char last_char : option char) : option (result (list str)) :=
  if negb (truthy chord || match char with Some _ => true | None => false end)
  then Some (Ok output)
  else
    match fuel with
    | O => None
    | S fuel' =>
        if Z.eqb i index then
          match chord with
          | None => Some (Raise AttributeError)
          | Some chord_text =>
              match emit_chord output chord_text char last_char with
              | Raise e => Some (Raise e)
              | Ok output' =>
                  let '(it', i', char', last_char') :=
                    skip_spaces (length chord_text) it i char last_char in
                  match next_chord chord_iter with
                  | Raise e => Some (Raise e)
                  | Ok ((index', chord'), chord_iter') =>
                      merge_loop fuel' chord_iter' it' output' index' chord'
                                 i' char' last_char'
                  end
              end
          end
        else
          let '((i', char'), it') := next_char it in
          match char with
          | None =>
              merge_loop fuel' chord_iter it' (output ++ [[SPACE]]) index
                         chord i' char' (Some SPACE)
          | Some c =>
              merge_loop fuel' chord_iter it' (output ++ [[c]]) index chord
                         i' char' (Some c)
          end
    end.

(** [re.sub(r'    +', '    ', s)]: of a run of spaces, only the first four
    are kept; [n] is the number of spaces just kept. *)
Fixpoint squeeze_spaces (s : str) (n : nat) : str :=
  match s with
  | [] => []
  | c :: r =>
      if N.eqb c SPACE then
        if Nat.leb 4 n then squeeze_spaces r n
        else c :: squeeze_spaces r (S n)
      else c :: squeeze_spaces r 0
  end.

Definition chordpro_line (fuel : nat) (chord_line lyric_line : option str)
    : option (result (option str)) :=
  match chord_line, lyric_line with
  | Some ((_ :: _) as chord_line'), Some ((_ :: _) as lyric_line') =>
      match next_chord (chord_indicies chord_line') with
      | Raise e => Some (Raise e)
      | Ok ((index, chord), chord_iter) =>
          let '((i, char), it) := next_char (LineIter 0 lyric_line') in
          match merge_loop fuel chord_iter it [] index chord i char None with
          | None => None
          | Some (Raise e) => Some (Raise e)
          | Some (Ok output) =>
              let chordpro := join output in
              let cleaned := squeeze_spaces chordpro 0 in
              Some (Ok (Some (strip cleaned)))
          end
      end
  | Some (_ :: _), _ => Some (Ok chord_line)
  | _, _ => Some (Ok lyric_line)
  end.

(** ** [parse_pdf]: the scan over the lines

    The call of [pdftotext] and the debug output are outside this model.
    This part covers the loop over the lines and the flush at the end of
    the input; the rendering of the sections through [chordpro_line] and
    the type of the document follow it. *)

(** One entry of a section: [(chord_line, lyric_line)], either may be
    [None]. *)
Definition pair_line : Type := (option str * option str)%type.

(** The dictionary [song].  [sections] is an [OrderedDict]: keys in the order
    of their first insertion. *)
Record song : Type := Song {
  title : option str;
  key : option str;
  tempo : option str;
  author : option str;
  time : option str;
  ccli : option str;
  legal : str;
  sections : list (str * list pair_line);
  type : str
}.

Definition empty_song : song :=
  Song None None None None None None [] [] (txt "pdf").

(** [d[k] = v] on an [OrderedDict]: a key already there keeps its place. *)
Fixpoint od_set {V} (d : list (str * V)) (k : str) (v : V)
    : list (str * V) :=
  match d with
  | [] => [(k, v)]
  | (k', v') :: d' =>
      if str_eqb k' k then (k', v) :: d' else (k', v') :: od_set d' k v
  end.

Definition set_title (s : song) (v : option str) : song :=
  Song v (key s) (tempo s) (author s) (time s) (ccli s) (legal s)
       (sections s) (type s).
Definition set_key (s : song) (v : option str) : song :=
  Song (title s) v (tempo s) (author s) (time s) (ccli s) (legal s)
       (sections s) (type s).
Definition set_tempo (s : song) (v : option str) : song :=
  Song (title s) (key s) v (author s) (time s) (ccli s) (legal s)
       (sections s) (type s).
Definition set_author (s : song) (v : option str) : song :=
  Song (title s) (key s) (tempo s) v (time s) (ccli s) (legal s)
       (sections s) (type s).
Definition set_time (s : song) (v : option str) : song :=
  Song (title s) (key s) (tempo s) (author s) v (ccli s) (legal s)
       (sections s) (type s).
Definition set_ccli (s : song) (v : option str) : song :=
  Song (title s) (key s) (tempo s) (author s) (time s) v (legal s)
       (sections s) (type s).
Definition add_legal (s : song) (line : str) : song :=
  Song (title s) (key s) (tempo s) (author s) (time s) (ccli s)
       (legal s ++ line) (sections s) (type s).
Definition set_section (s : song) (name : str) (v : list pair_line) : song :=
  Song (title s) (key s) (tempo s) (author s) (time s) (ccli s) (legal s)
       (od_set (sections s) name v) (type s).

(** The variables of the loop. *)
Record scan : Type := Scan {
  the_song : song;
  section_name : option str;
  section_lines : list pair_line;
  chord_line : option str;
  superscript_line : option str
}.

Definition start : scan := Scan empty_song None [] None None.

(** [if section_name: ...]: the pending chord line joins the open section,
    which is stored under its name.  Both the header branch and the end of
    the input do this. *)
Definition close_section (st : scan) : song * list pair_line :=
  match section_name st with
  | Some ((_ :: _) as name) =>
      let lines :=
        if truthy (chord_line st)
        then section_lines st ++ [(chord_line st, None)]
        else section_lines st in
      (set_section (the_song st) name lines, lines)
  | _ => (the_song st, section_lines st)
  end.

(** The preamble branch: key and title, or time, tempo and author. *)
Definition preamble (s : song) (line : str) : song :=
  match Regex.re_search RE.KEY line with
  | Some m =>
      let s1 := set_key s (Regex.group m 1) in
      set_title s1
        (Some (strip (slice_to line (Z.of_nat (Regex.span_start m)))))
  | None =>
      match Regex.re_search RE.TIME line with
      | Some m =>
          let s1 := set_time s (Regex.group m 1) in
          let span := Regex.span_start m in
          let '(s2, span') :=
            match Regex.re_search RE.TEMPO line with
            | Some tempo_match =>
                (set_tempo s1 (Regex.group tempo_match 1),
                 Regex.span_start tempo_match)
            | None => (s1, span)
            end in
          set_author s2 (Some (strip (slice_to line (Z.of_nat span'))))
      | None => s
      end
  end.

(** The body of [for line in lines]. *)
Definition step (st : scan) (line : str) : result scan :=
  let s := the_song st in
  if truthy (ccli s) then
    Ok (Scan (add_legal s line) (section_name st) (section_lines st)
             (chord_line st) (superscript_line st))
  else
    match Regex.re_search RE.CCLI line with
    | Some m =>
        Ok (Scan (add_legal (set_ccli s (Regex.group m 1)) line)
                 (section_name st) (section_lines st) (chord_line st)
                 (superscript_line st))
    | None =>
        let tokens := tokenise_chords line in
        match Regex.re_match RE.SECTION line with
        | Some _ =>
            Ok (Scan (fst (close_section st)) (Some (strip line)) [] None
                     (superscript_line st))
        | None =>
            chordy <- is_chord_line tokens ;;
            if chordy then
              let name :=
                if truthy (section_name st) then section_name st
                else Some (txt "VERSE 1") in
              match superscript_line st with
              | Some sup =>
                  merged <- fix_superscript_line sup (rstrip line) ;;
                  Ok (Scan s name (section_lines st) (Some merged) None)
              | None =>
                  Ok (Scan s name (section_lines st) (Some (rstrip line))
                           None)
              end
            else if truthy (section_name st) then
              if isdigit (strip line) then
                Ok (Scan s (section_name st) (section_lines st)
                         (chord_line st) (Some line))
              else
                Ok (Scan s (section_name st)
                         (section_lines st ++ [(chord_line st, Some (rstrip line))])
                         None (superscript_line st))
            else
              Ok (Scan (preamble s line) (section_name st) (section_lines st)
                       (chord_line st) (superscript_line st))
        end
    end.

(** [for line in lines]: an exception ends the scan. *)
Fixpoint scan_lines (st : scan) (lines : list str) : result scan :=
  match lines with
  | [] => Ok st
  | line :: more => st' <- step st line ;; scan_lines st' more
  end.

(** [lines = [l for l in sheet.split('\n') if l.strip()]], given the lines
    of the sheet. *)
Definition non_blank (sheet_lines : list str) : list str :=
  filter (fun l => nonempty (strip l)) sheet_lines.

(** The scan and the flush after it: the song with its sections as lists of
    pairs, before they are rendered. *)
Definition parse_lines (lines : list str) : result song :=
  st <- scan_lines start lines ;;
  Ok (fst (close_section st)).

(** ** [parse_pdf]: the rendering and the type of the document *)

(** [sheet.split('\n')]: the pieces between the line feeds; there is always
    one piece at least. *)
Fixpoint split_lines (sheet : str) : list str :=
  match sheet with
  | [] => [[]]
  | c :: r =>
      if N.eqb c LF then [] :: split_lines r
      else
        match split_lines r with
        | l :: ls => (c :: l) :: ls
        | [] => [[c]]
        end
  end.

(** [sep.join(items)], where an item may be [None]: a [TypeError] then. *)
Fixpoint join_with (sep : str) (items : list (option str)) : result str :=
  match items with
  | [] => Ok []
  | None :: _ => Raise TypeError
  | Some s :: more =>
      match more with
      | [] => Ok s
      | _ :: _ => r <- join_with sep more ;; Ok (s ++ sep ++ r)
      end
  end.

(** The calls [chordpro_line(c, l)] for the pairs of one section, in their
    order.  [join] draws all of them before it looks at any, so the first
    exception of a call ends the rendering; [None] is a call cut short. *)
Fixpoint render_pairs (fuel : nat) (pairs : list pair_line)
    : option (result (list (option str))) :=
  match pairs with
  | [] => Some (Ok [])
  | (c, l) :: more =>
      match chordpro_line fuel c l with
      | None => None
      | Some (Raise e) => Some (Raise e)
      | Some (Ok text) =>
          match render_pairs fuel more with
          | None => None
          | Some (Raise e) => Some (Raise e)
          | Some (Ok texts) => Some (Ok (text :: texts))
          end
      end
  end.

(** ['\n'.join(chordpro_line(c, l) for c, l in section_lines)]. *)
Definition render_section (fuel : nat) (pairs : list pair_line)
    : option (result str) :=
  match render_pairs fuel pairs with
  | None => None
  | Some (Raise e) => Some (Raise e)
  | Some (Ok texts) => Some (join_with [LF] texts)
  end.

(** [for name, section_lines in song['sections'].items(): ...]: every
    section gets its text, in the order of the dictionary. *)
Fixpoint render_sections (fuel : nat) (d : list (str * list pair_line))
    : option (result (list (str * str))) :=
  match d with
  | [] => Some (Ok [])
  | (name, pairs) :: more =>
      match render_section fuel pairs with
      | None => None
      | Some (Raise e) => Some (Raise e)
      | Some (Ok text) =>
          match render_sections fuel more with
          | None => None
          | Some (Raise e) => Some (Raise e)
          | Some (Ok texts) => Some (Ok ((name, text) :: texts))
          end
      end
  end.

(** The dictionary that [parse_pdf] returns: the song with its sections
    as ChordPro text. *)
Module Doc.
Record t : Type := Make {
  title : option str;
  key : option str;
  tempo : option str;
  author : option str;
  time : option str;
  ccli : option str;
  legal : str;
  sections : list (str * str);
  type : str
}.
End Doc.

(** The end of [parse_pdf]: the sections are rendered, and a song without
    sections gets the type ['pdf-failed']. *)
Definition finish (fuel : nat) (s : song) : option (result Doc.t) :=
  match render_sections fuel (sections s) with
  | None => None
  | Some (Raise e) => Some (Raise e)
  | Some (Ok rendered) =>
      Some (Ok (Doc.Make (title s) (key s) (tempo s) (author s) (time s)
                         (ccli s) (legal s) rendered
                         (match rendered with
                          | [] => txt "pdf-failed"
                          | _ :: _ => type s
                          end)))
  end.

(** [parse_pdf], given as [sheet] the text that [convert_pdf(path)]
    returned. *)
Definition parse_pdf (fuel : nat) (sheet : str) : option (result Doc.t) :=
  match parse_lines (non_blank (split_lines sheet)) with
  | Raise e => Some (Raise e)
  | Ok s => finish fuel s
  end.

(** ** Notions the properties are stated with *)

(** Whether a match was found ([if m:] on a match object or [None]). *)
Definition matched (m : option Regex.match_object) : bool :=
  match m with Some _ => true | None => false end.

(** The left branch of the alternation of the chord grammar, on its own:
    whether the no-chord case takes the token. *)
Definition no_chord_prefix (t : str) : bool :=
  matched (Regex.re_match (Regex.Cat Regex.Bol RE.nochords) t).

(** The white space that separates tokens: the separators but the bar. *)
Definition is_blank (c : char) : bool :=
  Regex.one_of [SPACE; TAB; LF; CR] c.

(** [layout i s ps]: the text [s], which starts at column [i] of a line, is
    made of the tokens of [ps] in their order, each at its recorded column,
    with nothing but white space before, between and after them. *)
Inductive layout : Z -> str -> list (Z * str) -> Prop :=
| layout_end : forall i g,
    forallb is_blank g = true ->
    layout i g []
| layout_token : forall i g t s ps,
    forallb is_blank g = true ->
    layout (i + len g + len t) s ps ->
    layout i (g ++ t ++ s) ((i + len g, t) :: ps)%Z.

(** [segments s toks]: [s] is the tokens [toks] in their order, separated by
    white space only, and every token begins with a character that is not
    white space. *)
Inductive segments : str -> list str -> Prop :=
| segments_end : forall g,
    forallb is_blank g = true ->
    segments g []
| segments_token : forall g c t s toks,
    forallb is_blank g = true ->
    is_blank c = false ->
    segments s toks ->
    segments (g ++ (c :: t) ++ s) ((c :: t) :: toks).

(** What the loop returns, given the token [chord] it is in the middle of:
    with no token begun, the rest of the line is tokens and white space; with
    a token begun, that token goes on for some characters [u] and the rest
    follows. *)
Definition continues (chord line : str) (toks : list str) : Prop :=
  match chord with
  | [] => segments line toks
  | _ :: _ =>
      exists u s toks',
        line = u ++ s /\ toks = (chord ++ u) :: toks' /\ segments s toks'
  end.

(** A line without nested and without unmatched brackets: a bracket opens
    only outside of brackets, and a closing bracket is the one waited for.
    [waiting] is the closer of the bracket that is open. *)
Definition is_closer (c : char) : bool :=
  Regex.one_of (txt ")]}") c.

Fixpoint plain_brackets (s : str) (waiting : option char) : bool :=
  match s with
  | [] => match waiting with None => true | Some _ => false end
  | c :: r =>
      match waiting with
      | Some cl =>
          if N.eqb c cl then plain_brackets r None
          else
            match brackets c with
            | Some _ => false
            | None => if is_closer c then false else plain_brackets r waiting
            end
      | None =>
          match brackets c with
          | Some cl => plain_brackets r (Some cl)
          | None => if is_closer c then false else plain_brackets r None
          end
      end
  end.

(** A spelling, in any case, of one of the section keywords. *)
Definition section_keywords : list string :=
  ["verse"; "chorus"; "bridge"; "pre-chorus"; "instrumental";
   "interlude"]%string.

Definition is_section_keyword (w : str) : bool :=
  existsb (fun k => str_eqb (map Regex.lower w) (txt k)) section_keywords.

(** The text of a note in a line: its letter, and the accidental that
    follows it if there is one. *)
Definition note_text (n : char) (after : str) : str :=
  match after with
  | x :: _ =>
      if Regex.class_i (Regex.one_of (txt "#b")) x then [n; x] else [n]
  | [] => [n]
  end.

(** A note letter, in either case. *)
Definition note_letter (n : char) : bool :=
  Regex.between "A" "G" n || Regex.between "a" "g" n.

(** The class [p] does not go on into [s]: [s] is empty or begins with a
    character outside of [p]. *)
Definition stops (p : char -> bool) (s : str) : Prop :=
  match s with
  | x :: _ => p x = false
  | [] => True
  end.

(** The length of a line that may be [None]. *)
Definition olen (o : option str) : nat :=
  match o with Some s => length s | None => 0 end.

(** Turns of its loop that are enough for [chordpro_line] on two lines. *)
Definition enough_fuel (c l : option str) : nat := 2 * olen c + olen l + 1.

Fixpoint enough_fuel_pairs (pairs : list pair_line) : nat :=
  match pairs with
  | [] => 0
  | (c, l) :: more => Nat.max (enough_fuel c l) (enough_fuel_pairs more)
  end.

Fixpoint enough_fuel_sections (d : list (str * list pair_line)) : nat :=
  match d with
  | [] => 0
  | (_, pairs) :: more =>
      Nat.max (enough_fuel_pairs pairs) (enough_fuel_sections more)
  end.

(** [ascending i bound g]: the generator [g] raises nothing, and the tokens
    it yields are not empty and lie one after the other, without overlap,
    from column [i] on and before column [bound]. *)
Fixpoint ascending (i bound : Z) (g : gen (Z * str)) : Prop :=
  match g with
  | Stop => True
  | Throw _ => False
  | Yield p g' =>
      (i <= fst p)%Z /\ snd p <> [] /\ (fst p + len (snd p) <= bound)%Z
      /\ ascending (fst p + len (snd p)) bound g'
  end.

(** The state of the loop of [chordpro_line] as the loop keeps it: the
    chord that waits is ahead of the lyric column, or there is none left;
    the lyric iterator is one step ahead of the column; what was put out
    has no empty piece. *)
Definition chord_ahead (bound i index : Z) (chord : option str)
    (g : gen (Z * str)) : Prop :=
  match chord with
  | Some t =>
      t <> [] /\ (i <= index)%Z /\ (index + len t <= bound)%Z
      /\ ascending (index + len t) bound g
  | None => index = (-1)%Z /\ g = Stop
  end.

Definition lyric_at (it : line_iter) (i : Z) (c : option char) : Prop :=
  (0 <= i)%Z /\ count it = (i + 1)%Z /\ (c = None -> chars it = []).

Definition lyric_left (it : line_iter) (c : option char) : Z :=
  (match c with Some _ => 1 | None => 0 end + len (chars it))%Z.

Definition turns_left (bound i index : Z) (chord : option str)
    (it : line_iter) (c : option char) : Z :=
  ((match chord with Some _ => bound - index + 1 | None => 0 end)
   + Z.max (bound - i) 0 + lyric_left it c)%Z.

(** The list [output] at the end of the loop of [chordpro_line], for a
    chord line and a lyric line that are not empty. *)
Definition chordpro_output (fuel : nat) (chord_line lyric_line : str)
    : option (result (list str)) :=
  match next_chord (chord_indicies chord_line) with
  | Raise e => Some (Raise e)
  | Ok ((index, chord), chord_iter) =>
      let '((i, c), it) := next_char (LineIter 0 lyric_line) in
      merge_loop fuel chord_iter it [] index chord i c None
  end.

(** How a token stands in the output: a directive as a comment, any other
    token in square brackets. *)
Definition wrap (t : str) : str :=
  if startswith t (txt "(") && endswith t (txt ")")
  then txt "{comment:" ++ t ++ txt "}"
  else txt "[" ++ t ++ txt "]".

(** The pieces of [output] are single characters, from the lyric line or
    spaces put in, and wrapped tokens, which are longer. *)
Definition is_long (piece : str) : bool := Nat.ltb 1 (length piece).

Definition not_space (c : char) : bool := negb (N.eqb c SPACE).

Definition chords_of (output : list str) : list str := filter is_long output.

Definition words_of (output : list str) : str :=
  filter not_space (concat (filter (fun p => negb (is_long p)) output)).

(** The tokens that are still to come, and the lyric characters that are. *)
Definition waiting (chord : option str) (g : gen (Z * str)) : list str :=
  match chord with Some t => [t] | None => [] end ++ map snd (yielded g).

Definition lyric_rest (it : line_iter) (c : option char) : str :=
  match c with Some x => [x] | None => [] end ++ chars it.

(** A pair that [chordpro_line] turns into a text: not [(None, None)] nor
    [('', None)]. *)
Definition renders (p : pair_line) : Prop :=
  truthy (fst p) = true \/ snd p <> None.

(** What the scan keeps true of its variables: the sections that are
    stored have distinct names; every pair, stored or of the open section,
    is one that [chordpro_line] turns into a text; the type of the song is
    the one it began with. *)
Definition scan_ok (st : scan) : Prop :=
  NoDup (map fst (sections (the_song st)))
  /\ Forall renders (section_lines st)
  /\ Forall (fun p => Forall renders (snd p)) (sections (the_song st))
  /\ type (the_song st) = txt "pdf".

(** A line that the scan takes as a lyric line when a section is open:
    no license number, no header, no chord line, not digits only. *)
Definition lyric_like (line : str) : Prop :=
  Regex.re_search RE.CCLI line = None
  /\ Regex.re_match RE.SECTION line = None
  /\ is_chord_line (tokenise_chords line) = Ok false
  /\ isdigit (strip line) = false.

(** A line that the scan takes as a chord line. *)
Definition chord_like_line (line : str) : Prop :=
  Regex.re_search RE.CCLI line = None
  /\ Regex.re_match RE.SECTION line = None
  /\ is_chord_line (tokenise_chords line) = Ok true.

(** The pairs that lyric lines in a row give: the chord line that waits
    goes with the first of them. *)
Fixpoint lyric_pairs (pending : option str) (lines : list str)
    : list pair_line :=
  match lines with
  | [] => []
  | l :: more => (pending, Some (rstrip l)) :: lyric_pairs None more
  end.

(** Whether the name [k] is a key of the dictionary. *)
Definition has_key {V} (d : list (str * V)) (k : str) : bool :=
  existsb (fun p => str_eqb (fst p) k) d.

(** * Properties *)

(** ** Strings *)

Lemma str_eqb_eq (a b : str) : str_eqb a b = true <-> a = b.
Proof.
  revert b; induction a as [|x a IH]; intros [|y b]; simpl; split;
    try congruence; try reflexivity.
  - rewrite andb_true_iff, N.eqb_eq, IH. intros [-> ->]; reflexivity.
  - intros H; injection H as -> ->. now rewrite N.eqb_refl, (proj2 (IH b)).
Qed.

Lemma startswith_app (p s : str) : startswith (p ++ s) p = true.
Proof.
  induction p as [|x p IH]; simpl; [reflexivity|].
  now rewrite N.eqb_refl.
Qed.

Lemma len_nonneg (s : str) : (0 <= len s)%Z.
Proof. unfold len; lia. Qed.

Lemma len_app (a b : str) : len (a ++ b) = (len a + len b)%Z.
Proof. unfold len; rewrite length_app; lia. Qed.

Lemma slice_from_app (pre s : str) : slice_from (pre ++ s) (len pre) = s.
Proof.
  unfold slice_from, len.
  destruct (Z.ltb_spec (Z.of_nat (length pre)) 0) as [H|_]; [lia|].
  rewrite Nat2Z.id.
  induction pre as [|x pre IH]; simpl; auto.
Qed.

(** [find] returns the column of a token that stands after white space only,
    when the token does not begin with white space. *)
Lemma find_from_gap (g : str) (c : char) (t s : str) (i : Z) :
  forallb is_blank g = true ->
  is_blank c = false ->
  find_from (g ++ (c :: t) ++ s) (c :: t) i = (i + len g)%Z.
Proof.
  intros Hg Hc; revert i; induction g as [|x g IH]; intros i.
  - cbn [app]. change (c :: t ++ s) with ((c :: t) ++ s).
    destruct ((c :: t) ++ s) eqn:E; [discriminate|].
    unfold find_from; fold find_from. rewrite <- E, startswith_app.
    unfold len; simpl; lia.
  - simpl in Hg. apply andb_true_iff in Hg as [Hx Hg].
    cbn [app find_from startswith].
    destruct (N.eqb_spec c x) as [->|_]; [congruence|].
    cbn [andb]. rewrite IH by assumption.
    unfold len; simpl length; lia.
Qed.

(** ** The tokenizer *)

Lemma flush_chord_app (acc chords : list str) (chord : str) :
  flush_chord (acc ++ chords) chord = acc ++ flush_chord chords chord.
Proof.
  unfold flush_chord; destruct (nonempty chord); [symmetry; apply app_assoc|reflexivity].
Qed.

(** The tokens already found are a prefix of the result. *)
Lemma tokenise_loop_acc (line : str) :
  forall acc chords chord closer,
    tokenise_loop line (acc ++ chords) chord closer
    = acc ++ tokenise_loop line chords chord closer.
Proof.
  induction line as [|c line IH]; intros acc chords chord closer;
    cbn [tokenise_loop].
  - apply flush_chord_app.
  - destruct closer as [cl|]; [apply IH|].
    destruct (brackets c); [apply IH|].
    destruct (is_separator c); [|apply IH].
    rewrite flush_chord_app.
    destruct (N.eqb c (ch "|")); [rewrite <- app_assoc|]; apply IH.
Qed.

Lemma tokenise_loop_from_nil (line : str) (chords : list str) chord closer :
  tokenise_loop line chords chord closer
  = chords ++ tokenise_loop line [] chord closer.
Proof.
  rewrite <- (app_nil_r chords) at 1. apply tokenise_loop_acc.
Qed.

Lemma flush_chord_nonempty (chords : list str) (chord : str) :
  Forall (fun t => t <> []) chords ->
  Forall (fun t => t <> []) (flush_chord chords chord).
Proof.
  intros H; unfold flush_chord; destruct chord; simpl; [assumption|].
  apply Forall_app; split; [assumption|].
  constructor; [discriminate|constructor].
Qed.

Lemma tokenise_loop_nonempty (line : str) :
  forall chords chord closer,
    Forall (fun t => t <> []) chords ->
    Forall (fun t => t <> []) (tokenise_loop line chords chord closer).
Proof.
  induction line as [|c line IH]; intros chords chord closer H;
    cbn [tokenise_loop].
  - now apply flush_chord_nonempty.
  - destruct closer as [cl|]; [now apply IH|].
    destruct (brackets c); [now apply IH|].
    destruct (is_separator c); [|now apply IH].
    apply IH. pose proof (flush_chord_nonempty chord H) as H1.
    destruct (N.eqb c (ch "|")); [|assumption].
    apply Forall_app; split; [assumption|].
    constructor; [discriminate|constructor].
Qed.

Lemma chord_like_total (t : str) : t <> [] -> exists b, chord_like t = Ok b.
Proof.
  intros Ht; unfold chord_like.
  destruct (str_eqb t (txt "|")); [now exists true|].
  destruct t as [|c t]; [contradiction|]. cbn [getitem_first bind].
  destruct (N.eqb c (ch "(")); [now exists true|].
  unfold getitem_last.
  destruct (rev (c :: t)) as [|z r] eqn:E.
  - apply (f_equal (@length _)) in E. rewrite length_rev in E. discriminate.
  - cbn [bind]. destruct (N.eqb z (ch ")")); [now exists true|].
    destruct (Regex.re_match RE.CHORD (c :: t)); [now exists true|now exists false].
Qed.

Lemma count_tokens_total (tokens : list str) :
  Forall (fun t => t <> []) tokens ->
  forall chords not_chords, exists n, count_tokens tokens chords not_chords = Ok n.
Proof.
  induction 1 as [|t tokens Ht _ IH]; intros chords not_chords; simpl.
  - eexists; reflexivity.
  - destruct (chord_like_total Ht) as [b ->]. cbn [bind].
    destruct b; apply IH.
Qed.

(** C10.  Every token that [tokenise_chords] returns is a non-empty string,
    whatever the line; hence [is_chord_line], which reads [t[0]] and [t[-1]]
    of each token, raises no [IndexError] on the tokens of a line and
    returns its verdict. *)
Theorem tokens_nonempty (line : str) :
  Forall (fun t => t <> []) (tokenise_chords line)
  /\ exists verdict, is_chord_line (tokenise_chords line) = Ok verdict.
Proof.
  assert (H : Forall (fun t : str => t <> []) (tokenise_chords line))
    by (apply tokenise_loop_nonempty; constructor).
  split; [exact H|].
  unfold is_chord_line.
  destruct (count_tokens_total H 0 0) as [n ->]. cbn [bind].
  eexists; reflexivity.
Qed.

(** ** The tokens lie in the line, in order *)

Lemma segments_blank (c : char) (s : str) (toks : list str) :
  is_blank c = true -> segments s toks -> segments (c :: s) toks.
Proof.
  intros Hc H; destruct H as [g Hg|g c' t s toks Hg Hc' H].
  - apply segments_end. simpl. now rewrite Hc.
  - apply (@segments_token (c :: g) c' t s toks); simpl; auto.
    now rewrite Hc.
Qed.

Lemma segments_start (c : char) (t s : str) (toks : list str) :
  is_blank c = false -> segments s toks ->
  segments ((c :: t) ++ s) ((c :: t) :: toks).
Proof. intros Hc H. now apply (@segments_token [] c t s toks). Qed.

Lemma separator_cases (c : char) :
  is_separator c = true -> c = ch "|" \/ is_blank c = true.
Proof.
  unfold is_separator, is_blank, Regex.one_of. cbn [existsb].
  destruct (N.eqb_spec c (ch "|")); [now left|now right].
Qed.

Lemma not_separator_not_blank (c : char) :
  is_separator c = false -> is_blank c = false.
Proof.
  unfold is_separator, is_blank, Regex.one_of. cbn [existsb].
  intros H. apply orb_false_iff in H as [_ H]. exact H.
Qed.

Lemma bracket_not_separator (c cl : char) :
  brackets c = Some cl -> is_blank c = false.
Proof.
  unfold brackets.
  destruct (N.eqb_spec c (ch "(")) as [->|_]; [reflexivity|].
  destruct (N.eqb_spec c (ch "[")) as [->|_]; [reflexivity|].
  destruct (N.eqb_spec c (ch "{")) as [->|_]; [reflexivity|discriminate].
Qed.

Lemma continues_step (chord : str) (c : char) (line : str) toks :
  (chord = [] -> is_blank c = false) ->
  continues (chord ++ [c]) line toks ->
  continues chord (c :: line) toks.
Proof.
  intros Hc H. unfold continues in H.
  destruct (chord ++ [c]) as [|x r] eqn:E; [now destruct chord|].
  destruct H as (u & s & toks' & -> & -> & Hs). rewrite <- E.
  destruct chord as [|y chord]; cbn [continues].
  - cbn [app]. apply segments_start; [now apply Hc|exact Hs].
  - exists (c :: u), s, toks'. repeat split; auto.
    now rewrite <- app_assoc.
Qed.

Lemma tokenise_loop_continues (line : str) :
  forall chord closer,
    (closer <> None -> chord <> []) ->
    continues chord line (tokenise_loop line [] chord closer).
Proof.
  induction line as [|c line IH]; intros chord closer Hcl;
    cbn [tokenise_loop].
  - destruct chord as [|y chord]; cbn [continues flush_chord nonempty app].
    + now apply segments_end.
    + exists [], [], []. split; [reflexivity|]. split.
      * now rewrite app_nil_r.
      * now apply segments_end.
  - destruct closer as [cl|].
    { apply continues_step; [intros ->; now elim Hcl|].
      apply IH. intros _. now destruct chord. }
    destruct (brackets c) as [cl|] eqn:Eb.
    { apply continues_step; [intros _; exact (bracket_not_separator _ Eb)|].
      apply IH. intros _. now destruct chord. }
    destruct (is_separator c) eqn:Es.
    2:{ apply continues_step; [intros _; now apply not_separator_not_blank|].
        apply IH. congruence. }
    rewrite tokenise_loop_from_nil.
    specialize (IH [] None (fun H => False_ind _ (H eq_refl))).
    cbn [continues] in IH.
    assert (Hrest : segments (c :: line)
              ((if N.eqb c (ch "|") then [[ch "|"]] else [])
               ++ tokenise_loop line [] [] None)).
    { destruct (separator_cases _ Es) as [->|Hb].
      - rewrite N.eqb_refl. now apply (@segments_start (ch "|") [] line).
      - destruct (N.eqb_spec c (ch "|")) as [->|_]; [discriminate|].
        now apply segments_blank. }
    destruct chord as [|y chord]; cbn [continues flush_chord nonempty app].
    + destruct (N.eqb c (ch "|")); exact Hrest.
    + exists [], (c :: line). eexists.
      split; [reflexivity|]. split; [|exact Hrest].
      rewrite app_nil_r.
      destruct (N.eqb c (ch "|")); cbn [app]; now rewrite <- ?app_assoc.
Qed.

Lemma tokenise_chords_segments (line : str) :
  segments line (tokenise_chords line).
Proof.
  apply (tokenise_loop_continues line (chord:=[]) (closer:=None)). congruence.
Qed.

(** On such a line the indexer finds every token at its own column. *)
Lemma chord_indicies_loop_layout (s : str) (toks : list str) :
  segments s toks ->
  forall pre,
    let g := chord_indicies_loop (pre ++ s) (len pre) toks in
    raises g = false /\ map snd (yielded g) = toks
    /\ layout (len pre) s (yielded g).
Proof.
  induction 1 as [g Hg|g c t s toks Hg Hc _ IH]; intros pre;
    cbn [chord_indicies_loop raises yielded map].
  - repeat split. now apply layout_end.
  - rewrite slice_from_app. unfold find. rewrite find_from_gap by assumption.
    pose proof (len_nonneg g) as Hlen.
    destruct (Z.eqb_spec (0 + len g) (-1)) as [E|_]; [lia|].
    specialize (IH (pre ++ g ++ c :: t)).
    replace (pre ++ g ++ (c :: t) ++ s) with ((pre ++ g ++ c :: t) ++ s)
      by (now rewrite <- !app_assoc).
    replace (len pre + (0 + len g) + len (c :: t))%Z
      with (len (pre ++ g ++ c :: t)) by (rewrite !len_app; lia).
    cbn zeta in IH. destruct IH as (Hr & Hm & Hl).
    cbn [raises yielded map snd]. rewrite Hr, Hm.
    repeat split.
    replace (len pre + (0 + len g))%Z with (len pre + len g)%Z by lia.
    apply layout_token; [assumption|].
    replace (len pre + len g + len (c :: t))%Z
      with (len (pre ++ g ++ c :: t)) by (rewrite !len_app; lia).
    exact Hl.
Qed.

Lemma chord_indicies_layout (line : str) :
  raises (chord_indicies line) = false
  /\ map snd (yielded (chord_indicies line)) = tokenise_chords line
  /\ layout 0 line (yielded (chord_indicies line)).
Proof.
  exact (chord_indicies_loop_layout (tokenise_chords_segments line) []).
Qed.

(** A layout places every token where the line has it. *)
Lemma layout_columns (i : Z) (s : str) (ps : list (Z * str)) :
  layout i s ps ->
  forall pre, len pre = i ->
    Forall (fun p => slice_to (slice_from (pre ++ s) (fst p)) (len (snd p))
                     = snd p) ps.
Proof.
  induction 1 as [i g Hg|i g t s ps Hg _ IH]; intros pre Hpre;
    constructor.
  - cbn [fst snd]. rewrite <- Hpre, <- len_app, app_assoc, slice_from_app.
    unfold slice_to, len.
    destruct (Z.ltb_spec (Z.of_nat (length t)) 0) as [E|_]; [lia|].
    rewrite Nat2Z.id.
    clear; induction t as [|x t IH]; simpl; [reflexivity|now rewrite IH].
  - specialize (IH (pre ++ g ++ t)).
    rewrite <- !app_assoc in IH. apply IH.
    rewrite !len_app; lia.
Qed.

(** C3.  Whatever the line, the indexer run on the tokens of that line never
    takes the branch that raises: every token is found in the part of the
    line that is left, and all the tokens are yielded, in their order. *)
Theorem chord_indicies_never_raises (line : str) :
  raises (chord_indicies line) = false
  /\ map snd (yielded (chord_indicies line)) = tokenise_chords line.
Proof.
  destruct (chord_indicies_layout line) as (H1 & H2 & _). now split.
Qed.

(** C9.  On a line without nested and without unmatched brackets the pairs
    that [chord_indicies] yields rebuild the line: they are the tokens of the
    line in their order, each column is the place where the line has the
    token, and the line is these tokens with white space, and nothing else,
    before, between and after them. *)
Theorem chord_indicies_rebuild_line (line : str) :
  plain_brackets line None = true ->
  let ps := yielded (chord_indicies line) in
  map snd ps = tokenise_chords line
  /\ layout 0 line ps
  /\ Forall (fun p => slice_to (slice_from line (fst p)) (len (snd p))
                      = snd p) ps.
Proof.
  intros _ ps. destruct (chord_indicies_layout line) as (_ & H2 & H3).
  repeat split; [exact H2|exact H3|].
  exact (layout_columns H3 [] eq_refl).
Qed.

Lemma chord_indicies_rebuild_line_witness :
  plain_brackets (txt "Am | (To Chorus) G/B") None = true
  /\ (map snd (yielded (chord_indicies (txt "Am | (To Chorus) G/B")))
      = tokenise_chords (txt "Am | (To Chorus) G/B")
      /\ layout 0 (txt "Am | (To Chorus) G/B")
                (yielded (chord_indicies (txt "Am | (To Chorus) G/B")))
      /\ Forall (fun p => slice_to (slice_from (txt "Am | (To Chorus) G/B")
                                               (fst p)) (len (snd p))
                          = snd p)
                (yielded (chord_indicies (txt "Am | (To Chorus) G/B")))).
Proof.
  split; [reflexivity|].
  exact (chord_indicies_rebuild_line (txt "Am | (To Chorus) G/B") eq_refl).
Defined.

(** ** The merge of a chord line and a lyric line *)

(** A run that ended keeps its result when it is given more turns. *)
Lemma merge_loop_more_fuel (n : nat) :
  forall m chord_iter it output index chord i char last_char r,
    merge_loop n chord_iter it output index chord i char last_char = Some r ->
    n <= m ->
    merge_loop m chord_iter it output index chord i char last_char = Some r.
Proof.
  induction n as [|n IH]; intros m chord_iter it output index chord i char
    last_char r H Hm.
  - destruct m; [exact H|]. cbn [merge_loop] in *.
    destruct (negb _); [exact H|discriminate].
  - destruct m as [|m]; [lia|]. cbn [merge_loop] in *.
    destruct (negb _); [exact H|].
    destruct (Z.eqb i index).
    + destruct chord as [chord_text|]; [|exact H].
      destruct (emit_chord _ _ _ _); [|exact H].
      destruct (skip_spaces _ _ _ _ _) as [[[it' i'] char'] last'].
      destruct (next_chord chord_iter) as [[[index' chord'] g]|]; [|exact H].
      apply IH; [exact H|lia].
    + destruct (next_char it) as [[i' char'] it'].
      destruct char; (apply IH; [exact H|lia]).
Qed.

Lemma chordpro_line_more_fuel (n m : nat) chord_line lyric_line r :
  chordpro_line n chord_line lyric_line = Some r ->
  n <= m ->
  chordpro_line m chord_line lyric_line = Some r.
Proof.
  unfold chordpro_line. intros H Hm.
  destruct chord_line as [[|c cl]|]; try exact H.
  destruct lyric_line as [[|l ll]|]; try exact H.
  destruct (next_chord _) as [[[index chord] g]|]; [|exact H].
  destruct (next_char _) as [[i char] it].
  destruct (merge_loop n _ _ _ _ _ _ _ _) as [r'|] eqn:E; [|discriminate].
  now rewrite (@merge_loop_more_fuel n m _ _ _ _ _ _ _ _ _ E Hm).
Qed.

(** C4.  The chord line ["C       G       "] has [C] at column 0 and [G] at
    column 8, and merged with the lyric line ["Amazing grace"] it gives
    exactly ["[C]Amazing [G]grace"]; fifteen turns of the loop are enough,
    and more change nothing. *)
Theorem chordpro_line_amazing_grace (fuel : nat) :
  15 <= fuel ->
  yielded (chord_indicies (txt "C       G       "))
  = [(0, txt "C"); (8, txt "G")]%Z
  /\ chordpro_line fuel (Some (txt "C       G       "))
                   (Some (txt "Amazing grace"))
     = Some (Ok (Some (txt "[C]Amazing [G]grace"))).
Proof.
  intros H. split; [reflexivity|].
  apply (@chordpro_line_more_fuel 15); [reflexivity|exact H].
Qed.

Lemma chordpro_line_amazing_grace_witness :
  15 <= 15
  /\ (yielded (chord_indicies (txt "C       G       "))
      = [(0, txt "C"); (8, txt "G")]%Z
      /\ chordpro_line 15 (Some (txt "C       G       "))
                       (Some (txt "Amazing grace"))
         = Some (Ok (Some (txt "[C]Amazing [G]grace")))).
Proof.
  split; [apply le_n|].
  apply (chordpro_line_amazing_grace (fuel:=15)). apply le_n.
Defined.

(** ** The superscript merger *)

Example fix_superscript_line_A6 :
  fix_superscript_line (txt " 6") (txt "A /B") = Ok (txt "A6/B").
Proof. reflexivity. Qed.

Lemma join_items_raise_after (x : char) (more : list (option char)) e :
  join_items more = Raise e -> join_items (Some x :: more) = Raise e.
Proof. intros H; cbn [join_items]. now rewrite H. Qed.

Lemma superscript_column_past_chords (x : char) (more : list (option char)) :
  join_items (superscript_column (Some x, None) ++ more) = Raise TypeError.
Proof.
  unfold superscript_column. destruct (N.eqb x SPACE); reflexivity.
Qed.

Lemma superscript_column_both (x y : char) (more : list (option char)) e :
  join_items more = Raise e ->
  join_items (superscript_column (Some x, Some y) ++ more) = Raise e.
Proof.
  intros H. unfold superscript_column.
  destruct (N.eqb x SPACE); [|destruct (N.eqb y SPACE)]; cbn [app];
    repeat apply join_items_raise_after; exact H.
Qed.

(** A superscript line that is longer than the chord line makes the function
    raise: the columns past the end of the chord line put [None] in [out],
    and [join] refuses it. *)
Lemma fix_superscript_line_longer (superscript : str) :
  forall chords,
    length chords < length superscript ->
    fix_superscript_line superscript chords = Raise TypeError.
Proof.
  unfold fix_superscript_line.
  induction superscript as [|x superscript IH]; intros chords H;
    [simpl in H; lia|].
  destruct chords as [|y chords]; cbn [zip_longest flat_map].
  - apply superscript_column_past_chords.
  - apply superscript_column_both. apply IH. simpl in H; lia.
Qed.

(** A superscript line that is no longer than the chord line is merged. *)
Lemma fix_superscript_line_chords_only (chords : str) :
  join_items (flat_map superscript_column
                       (map (fun z => (None, Some z)) chords))
  = Ok chords.
Proof.
  induction chords as [|y chords IH]; [reflexivity|].
  cbn [map flat_map superscript_column app join_items]. now rewrite IH.
Qed.

Lemma fix_superscript_line_not_longer (superscript : str) :
  forall chords,
    length superscript <= length chords ->
    exists merged, fix_superscript_line superscript chords = Ok merged.
Proof.
  unfold fix_superscript_line.
  induction superscript as [|x superscript IH]; intros chords H.
  - destruct chords as [|y chords]; [now exists []|].
    cbn [zip_longest flat_map superscript_column app join_items].
    rewrite fix_superscript_line_chords_only. now eexists.
  - destruct chords as [|y chords]; [simpl in H; lia|].
    destruct (IH chords) as [merged Hm]; [simpl in H; lia|].
    cbn [zip_longest flat_map superscript_column].
    destruct (N.eqb x SPACE); [|destruct (N.eqb y SPACE)];
      cbn [app join_items]; rewrite Hm; now eexists.
Qed.

(** C6, at the input where the code fails: the superscript line ["  6"] over
    the chord line ["A"] does not give a merged line, the function raises a
    [TypeError]; and so does every superscript line that goes on past the
    end of the chord line, here one that is the chord line's columns and at
    least one more. *)
Theorem fix_superscript_line_raises :
  fix_superscript_line (txt "  6") (txt "A") = Raise TypeError
  /\ forall chords x more,
       fix_superscript_line (map (fun _ => SPACE) chords ++ x :: more) chords
       = Raise TypeError.
Proof.
  split; [reflexivity|].
  intros chords x more. apply fix_superscript_line_longer.
  rewrite length_app, length_map. cbn [length]. lia.
Qed.

Example superscript_crash_is_reachable :
  scan_lines start [txt "Verse 1"; txt "  6"; txt "A"] = Raise TypeError.
Proof. vm_compute. reflexivity. Qed.

(** ** The matcher *)

Module RegexFacts.
Import Regex.

Lemma run_cat_cons (a : t) (l : list t) (c : cursor) k :
  run (cat (a :: l)) c k = run a c (fun c' => run (cat l) c' k).
Proof. destruct l; reflexivity. Qed.

(** A literal under [re.IGNORECASE] reads a text that is equal to it up to
    case, and goes on after it. *)
Lemma run_literal_i (l : str) :
  forall (w s : str) (n : nat) g k,
    map lower w = map lower l ->
    run (cat (map (fun x => Chr (fun y => N.eqb (lower y) (lower x))) l))
        (Cursor n (w ++ s) g) k
    = k (Cursor (n + length w) s g).
Proof.
  induction l as [|x l IH]; intros w s n g k H.
  - destruct w; [|discriminate]. cbn. now rewrite Nat.add_0_r.
  - destruct w as [|y w]; [discriminate|].
    injection H as Hy Hw. cbn [map]. rewrite run_cat_cons.
    cbn [run rest app pos groups]. rewrite Hy, N.eqb_refl.
    rewrite (IH w s (S n) g k Hw). cbn [length].
    now rewrite Nat.add_succ_r.
Qed.

Lemma run_lit_i (k0 : string) (w s : str) (n : nat) g k :
  map lower w = map lower (txt k0) ->
  run (lit_i k0) (Cursor n (w ++ s) g) k = k (Cursor (n + length w) s g).
Proof. apply run_literal_i. Qed.

(** An alternation succeeds as soon as one of its branches does. *)
Lemma run_alt_in (l : list t) :
  forall a c k r,
    In a l -> run a c k = Some r -> exists r', run (alt l) c k = Some r'.
Proof.
  induction l as [|x l IH]; intros a c k r Hin Ha; [contradiction|].
  destruct l as [|y l].
  - destruct Hin as [->|[]]. now exists r.
  - change (alt (x :: y :: l)) with (Alt x (alt (y :: l))). cbn [run].
    destruct (run x c k) as [r1|] eqn:E; [now exists r1|].
    destruct Hin as [->|Hin]; [congruence|].
    exact (IH a c k r Hin Ha).
Qed.

(** A success of the matcher is a success of its continuation, further on
    in the text. *)
Lemma star_calls (p : char -> bool) (s : str) :
  forall n g k r,
    star p n s g k = Some r ->
    exists n' s', n <= n' /\ k (Cursor n' s' g) = Some r.
Proof.
  induction s as [|x s IH]; intros n g k r H; cbn [star] in H.
  - now exists n, [].
  - destruct (p x); [|now exists n, (x :: s)].
    destruct (star p (S n) s g k) as [r1|] eqn:E.
    + injection H as ->. destruct (IH _ _ _ _ E) as (n' & s' & Hn & Hk).
      exists n', s'. split; [lia|exact Hk].
    + now exists n, (x :: s).
Qed.

Lemma run_calls (r : t) :
  forall c k res,
    run r c k = Some res -> exists c', pos c <= pos c' /\ k c' = Some res.
Proof.
  induction r as [|p|a IHa b IHb|a IHa b IHb|a IHa|p|n a IHa| |];
    intros c k res H; cbn [run] in H.
  - now exists c.
  - destruct (rest c) as [|x s]; [discriminate|].
    destruct (p x); [|discriminate].
    eexists; split; [|exact H]. cbn; lia.
  - destruct (IHa _ _ _ H) as (c1 & H1 & E1).
    destruct (IHb _ _ _ E1) as (c2 & H2 & E2).
    exists c2; split; [lia|exact E2].
  - destruct (run a c k) as [r1|] eqn:E.
    + injection H as ->. exact (IHa _ _ _ E).
    + exact (IHb _ _ _ H).
  - destruct (run a c k) as [r1|] eqn:E.
    + injection H as ->. exact (IHa _ _ _ E).
    + now exists c.
  - destruct (star_calls _ _ _ _ _ H) as (n' & s' & Hn & Hk).
    eexists; split; [|exact Hk]. exact Hn.
  - destruct (IHa _ _ _ H) as (c1 & H1 & E1).
    eexists; split; [|exact E1]. exact H1.
  - destruct (Nat.eqb (pos c) 0); [now exists c|discriminate].
  - destruct (rest c) as [|x [|y s]]; [now exists c| |discriminate].
    destruct (N.eqb x LF); [now exists c|discriminate].
Qed.

(** A search that succeeds is a match at some column. *)
Lemma search_from_inv (r : t) (s : str) :
  forall i m,
    search_from r i s = Some m -> exists j s', match_at r j s' = Some m.
Proof.
  induction s as [|x s IH]; intros i m H; cbn [search_from] in H.
  - destruct (match_at r i []) as [m1|] eqn:E; [|discriminate].
    injection H as ->. now exists i, [].
  - destruct (match_at r i (x :: s)) as [m1|] eqn:E.
    + injection H as ->. now exists i, (x :: s).
    + exact (IH _ _ H).
Qed.

(** A search finds the match at column [length pre] when no match starts
    before. *)
Lemma search_from_skip (r : t) (pre : str) :
  forall i s m,
    (forall j, j < length pre ->
       match_at r (i + j) (skipn j (pre ++ s)) = None) ->
    match_at r (i + length pre) s = Some m ->
    search_from r i (pre ++ s) = Some m.
Proof.
  induction pre as [|x pre IH]; intros i s m Hno Hm.
  - cbn [app length] in *. rewrite Nat.add_0_r in Hm.
    destruct s; cbn [search_from]; now rewrite Hm.
  - cbn [app search_from].
    pose proof (Hno 0 (Nat.lt_0_succ _)) as H0.
    rewrite Nat.add_0_r in H0. cbn [skipn app] in H0. rewrite H0.
    apply IH.
    + intros j Hj. specialize (Hno (S j)). cbn [skipn app length] in Hno.
      rewrite Nat.add_succ_r in Hno. apply Hno. lia.
    + cbn [length] in Hm. now rewrite Nat.add_succ_r in Hm.
Qed.

End RegexFacts.


(** ** The chord grammar *)

Example chord_grammar_table :
  map (fun t => matched (Regex.re_match RE.CHORD (txt t)))
      ["C"; "Am7"; "G#m"; "F/A"; "Csus4"; "Dadd9"; "N.C."; "Bb";
       "Hello"; "7up"; "the"]%string
  = [true; true; true; true; true; true; true; true; false; false; false].
Proof. vm_compute. reflexivity. Qed.

(** C2, at the inputs where the code fails: the token ["N.C.xyz"], and then
    every token that begins with [N.C.], matches the chord grammar whatever
    follows.  The [$] of the pattern belongs to the right branch of its
    alternation only. *)
Theorem chord_grammar_accepts_trailing_text :
  matched (Regex.re_match RE.CHORD (txt "N.C.xyz")) = true
  /\ forall trailing,
       matched (Regex.re_match RE.CHORD (txt "N.C." ++ trailing)) = true.
Proof.
  split; [vm_compute; reflexivity|intros trailing; vm_compute; reflexivity].
Qed.

(** C7, as the claim has it, fails: the tokens [H], [J] and [Z], whose
    letter is outside A to G, match the chord grammar. *)
Lemma chord_grammar_accepts_H_J_Z :
  no_chord_prefix (txt "H") = false
  /\ matched (Regex.re_match RE.CHORD (txt "H")) = true
  /\ matched (Regex.re_match RE.CHORD (txt "J")) = true
  /\ matched (Regex.re_match RE.CHORD (txt "Z")) = true.
Proof. repeat split; vm_compute; reflexivity. Qed.

Lemma run_note_root (t : str) (n : nat) g k res :
  Regex.run RE.note (Regex.Cursor n t g) k = Some res ->
  exists c r, t = c :: r /\ RE.root c = true.
Proof.
  unfold RE.note. cbn [Regex.cat Regex.run Regex.rest].
  destruct t as [|c r]; [discriminate|].
  destruct (RE.root c) eqn:E; [|discriminate].
  intros _. now exists c, r.
Qed.

(** C7, amended.  A token that matches the chord grammar, and is not taken
    by the no-chord branch, begins with a letter from A to J or with Z. *)
Theorem chord_grammar_root_letter (t : str) :
  matched (Regex.re_match RE.CHORD t) = true ->
  no_chord_prefix t = false ->
  exists c r, t = c :: r
    /\ ((ch "A" <= c)%N /\ (c <= ch "J")%N \/ c = ch "Z").
Proof.
  unfold no_chord_prefix, Regex.re_match, Regex.match_at, RE.CHORD.
  cbn [Regex.run].
  destruct (Regex.run RE.nochords _ _) as [r1|].
  { intros _ H. discriminate H. }
  destruct (Regex.run (Regex.cat _) _ _) as [r2|] eqn:E.
  2:{ intros H. discriminate H. }
  intros _ _. rewrite RegexFacts.run_cat_cons in E.
  apply run_note_root in E as (c & r & -> & E).
  exists c, r. split; [reflexivity|].
  unfold RE.root, Regex.between in E.
  apply orb_true_iff in E as [E|E].
  - left. apply andb_true_iff in E as [E1 E2].
    now apply N.leb_le in E1, E2.
  - right. now apply N.eqb_eq.
Qed.

Lemma chord_grammar_root_letter_witness :
  matched (Regex.re_match RE.CHORD (txt "H")) = true
  /\ no_chord_prefix (txt "H") = false
  /\ exists c r, txt "H" = c :: r
       /\ ((ch "A" <= c)%N /\ (c <= ch "J")%N \/ c = ch "Z").
Proof.
  split; [vm_compute; reflexivity|]. split; [vm_compute; reflexivity|].
  apply (chord_grammar_root_letter (txt "H")); vm_compute; reflexivity.
Defined.

Example chord_grammar_rejects_K :
  matched (Regex.re_match RE.CHORD (txt "K")) = false.
Proof. vm_compute. reflexivity. Qed.


(** ** Section headers *)

(** A line that begins with a section keyword, in any case, matches
    [RE.SECTION]. *)
Lemma section_keyword_matches (w s : str) :
  is_section_keyword w = true ->
  matched (Regex.re_match RE.SECTION (w ++ s)) = true.
Proof.
  intros H. unfold is_section_keyword in H.
  apply existsb_exists in H as (k0 & Hin & Hk). apply str_eqb_eq in Hk.
  assert (Hrun : exists r,
            Regex.run RE.SECTION (Regex.Cursor 0 (w ++ s) []) Some = Some r).
  { unfold RE.SECTION. cbn [Regex.run].
    apply (@RegexFacts.run_alt_in _ (Regex.lit_i k0) _ _
             (Regex.Cursor (length w) s
                [(1, firstn (length w - 0) (w ++ s))])).
    - unfold section_keywords in Hin. cbn [In] in Hin.
      repeat (destruct Hin as [<-|Hin]; [cbn [In]; tauto|]).
      contradiction.
    - rewrite RegexFacts.run_lit_i; [reflexivity|].
      rewrite Hk. unfold section_keywords in Hin. cbn [In] in Hin.
      repeat (destruct Hin as [<-|Hin]; [vm_compute; reflexivity|]).
      contradiction. }
  destruct Hrun as [r Hr].
  unfold Regex.re_match, Regex.match_at. now rewrite Hr.
Qed.

(** C1, as the claim has it, fails: the line ["Sing the chorus"] contains
    the keyword [chorus], no license line came before it, and the scan
    leaves it out as preamble noise: no section is opened. *)
Lemma keyword_inside_line_is_no_header :
  matched (Regex.re_search RE.SECTION (txt "Sing the chorus")) = true
  /\ step start (txt "Sing the chorus") = Ok start.
Proof. split; vm_compute; reflexivity. Qed.

(** C1, amended.  A line that begins with one of the section keywords, in
    any case, that holds no license number and comes before any license
    line, is a section header: the open section, if there is one, is closed
    (its pending chord line joins it and it is stored under its name), and a
    new section is opened, empty and named by the stripped line. *)
Theorem keyword_at_line_start_is_header (st : scan) (w s : str) :
  is_section_keyword w = true ->
  truthy (ccli (the_song st)) = false ->
  Regex.re_search RE.CCLI (w ++ s) = None ->
  step st (w ++ s)
  = Ok (Scan (fst (close_section st)) (Some (strip (w ++ s))) [] None
             (superscript_line st)).
Proof.
  intros Hw Hc Hl. unfold step. rewrite Hc, Hl.
  pose proof (section_keyword_matches w s Hw) as Hm.
  destruct (Regex.re_match RE.SECTION (w ++ s)); [reflexivity|discriminate].
Qed.

Lemma keyword_at_line_start_is_header_witness :
  is_section_keyword (txt "Verse") = true
  /\ truthy (ccli (the_song start)) = false
  /\ Regex.re_search RE.CCLI (txt "Verse" ++ txt " 1") = None
  /\ step start (txt "Verse" ++ txt " 1")
     = Ok (Scan (fst (close_section start))
                (Some (strip (txt "Verse" ++ txt " 1"))) [] None
                (superscript_line start)).
Proof.
  split; [vm_compute; reflexivity|]. split; [reflexivity|].
  split; [vm_compute; reflexivity|].
  apply (keyword_at_line_start_is_header start (txt "Verse") (txt " 1"));
    vm_compute; reflexivity.
Defined.

Lemma close_section_open (st : scan) (c : char) (name : str) :
  section_name st = Some (c :: name) ->
  fst (close_section st)
  = set_section (the_song st) (c :: name)
      (if truthy (chord_line st)
       then section_lines st ++ [(chord_line st, None)]
       else section_lines st).
Proof. intros H. unfold close_section. now rewrite H. Qed.

(** ** The license line and the legal text *)

(** The group of [RE.CCLI] is one digit or more: the license number that a
    match records is not empty. *)
Lemma ccli_match_number (i : nat) (s : str) (m : Regex.match_object) :
  Regex.match_at RE.CCLI i s = Some m ->
  truthy (Regex.group m 1) = true.
Proof.
  unfold Regex.match_at.
  destruct (Regex.run RE.CCLI _ _) as [res|] eqn:E; [|discriminate].
  intros H; injection H as <-. unfold Regex.group. cbn [Regex.captured].
  unfold RE.CCLI in E.
  do 6 (rewrite RegexFacts.run_cat_cons in E;
        apply RegexFacts.run_calls in E as (? & _ & E)).
  cbn [Regex.cat Regex.run] in E. unfold Regex.Plus in E.
  cbn [Regex.run] in E.
  destruct (Regex.rest x4) as [|d r] eqn:Er; [discriminate|].
  destruct (isdecimal d); [|discriminate].
  apply RegexFacts.star_calls in E as (n' & s' & Hn & E).
  injection E as <-. cbn [Regex.groups Regex.group_of Nat.eqb Regex.pos].
  cbn [Regex.pos] in Hn.
  destruct (n' - Regex.pos x4) as [|k] eqn:Ek; [lia|]. reflexivity.
Qed.

Lemma ccli_search_number (line : str) (m : Regex.match_object) :
  Regex.re_search RE.CCLI line = Some m ->
  truthy (Regex.group m 1) = true.
Proof.
  intros H. apply RegexFacts.search_from_inv in H as (j & s' & H).
  exact (ccli_match_number _ _ H).
Qed.

(** Once the license number is set, a line only grows the legal text. *)
Lemma step_legal (st : scan) (line : str) :
  truthy (ccli (the_song st)) = true ->
  step st line
  = Ok (Scan (add_legal (the_song st) line) (section_name st)
             (section_lines st) (chord_line st) (superscript_line st)).
Proof. intros H. unfold step. now rewrite H. Qed.

Lemma scan_lines_legal (lines : list str) :
  forall st,
    truthy (ccli (the_song st)) = true ->
    scan_lines st lines
    = Ok (Scan (add_legal (the_song st) (concat lines)) (section_name st)
               (section_lines st) (chord_line st) (superscript_line st)).
Proof.
  induction lines as [|line lines IH]; intros st H; cbn [scan_lines concat].
  - destruct st as [[] ? ? ? ?]. unfold add_legal. cbn.
    now rewrite app_nil_r.
  - rewrite (step_legal _ _ H). cbn [bind]. rewrite IH by exact H.
    destruct st as [[] ? ? ? ?]. unfold add_legal. cbn.
    now rewrite app_assoc.
Qed.

(** C5.  Take a line that matches the license pattern, met before any
    license number was recorded.  The scan records its number, and from then
    on every line of the document, whatever it holds, is appended as it is
    to the legal text and nothing else changes: the title, key, tempo,
    author, time signature, license number and sections of the song, the
    open section and its pairs, the pending chord line and the pending
    superscript line all stay as the license line left them. *)
Theorem license_line_ends_the_structure (st : scan) (line : str)
    (later : list str) (m : Regex.match_object) :
  truthy (ccli (the_song st)) = false ->
  Regex.re_search RE.CCLI line = Some m ->
  let s1 := add_legal (set_ccli (the_song st) (Regex.group m 1)) line in
  step st line
  = Ok (Scan s1 (section_name st) (section_lines st) (chord_line st)
             (superscript_line st))
  /\ scan_lines st (line :: later)
     = Ok (Scan (Song (title s1) (key s1) (tempo s1) (author s1) (time s1)
                      (ccli s1) (legal s1 ++ concat later) (sections s1)
                      (type s1))
                (section_name st) (section_lines st) (chord_line st)
                (superscript_line st)).
Proof.
  intros Hc Hm s1.
  assert (Hstep : step st line
                  = Ok (Scan s1 (section_name st) (section_lines st)
                             (chord_line st) (superscript_line st))).
  { unfold step. now rewrite Hc, Hm. }
  split; [exact Hstep|].
  cbn [scan_lines]. rewrite Hstep. cbn [bind].
  rewrite scan_lines_legal; [reflexivity|].
  cbn [the_song]. unfold s1, add_legal, set_ccli. cbn [ccli].
  exact (ccli_search_number _ Hm).
Qed.

Lemma license_line_ends_the_structure_witness :
  let st := start in
  let line := txt "CCLI Song # 12345" in
  let later := [txt "Verse 1"; txt "C G"; txt "Amazing grace"] in
  let m := Regex.Match 0 17 [(1, txt "12345")] in
  truthy (ccli (the_song st)) = false
  /\ Regex.re_search RE.CCLI line = Some m
  /\ scan_lines st (line :: later)
     = Ok (Scan (Song None None None None None (Some (txt "12345"))
                      (txt "CCLI Song # 12345Verse 1C GAmazing grace") []
                      (txt "pdf"))
                None [] None None).
Proof.
  intros st line later m.
  split; [reflexivity|]. split; [vm_compute; reflexivity|].
  refine (proj2 (license_line_ends_the_structure st line later (m:=m) _ _)).
  - reflexivity.
  - vm_compute; reflexivity.
Defined.

(** ** The key marker of the preamble *)

Module KeyMarker.
Import Regex.

(** A greedy repetition that can take all of [ws], and no more, goes on
    after [ws] when the rest of the pattern succeeds there. *)
Lemma star_greedy (p : char -> bool) (ws : str) :
  forall s n g k r,
    forallb p ws = true ->
    stops p s ->
    k (Cursor (n + length ws) s g) = Some r ->
    star p n (ws ++ s) g k = Some r.
Proof.
  induction ws as [|w ws IH]; intros s n g k r Hws Hs Hk.
  - cbn [app length] in *. rewrite Nat.add_0_r in Hk.
    destruct s as [|x s]; cbn [star]; [exact Hk|].
    cbn [stops] in Hs. now rewrite Hs.
  - cbn [forallb] in Hws. apply andb_true_iff in Hws as [Hw Hws].
    cbn [app star]. rewrite Hw.
    rewrite (IH s (S n) g k r Hws Hs); [reflexivity|].
    cbn [length] in Hk. now rewrite Nat.add_succ_r in Hk.
Qed.

Lemma run_plus_greedy (p : char -> bool) (ws s : str) n g k r :
  ws <> [] ->
  forallb p ws = true ->
  stops p s ->
  k (Cursor (n + length ws) s g) = Some r ->
  run (Plus p) (Cursor n (ws ++ s) g) k = Some r.
Proof.
  intros Hne Hws Hs Hk. destruct ws as [|w ws]; [contradiction|].
  cbn [forallb] in Hws. apply andb_true_iff in Hws as [Hw Hws].
  unfold Plus. cbn [run rest app pos groups]. rewrite Hw.
  apply star_greedy; [exact Hws|exact Hs|].
  cbn [length] in Hk. now rewrite Nat.add_succ_r in Hk.
Qed.

Lemma note_letter_class (n : char) :
  note_letter n = true ->
  class_i (between "A" "G") n = true /\ isspace n = false.
Proof.
  unfold note_letter, between. intros H.
  assert (Hn : In n [65; 66; 67; 68; 69; 70; 71;
                     97; 98; 99; 100; 101; 102; 103]%N).
  { apply orb_true_iff in H as [H|H]; apply andb_true_iff in H as [H1 H2];
      apply N.leb_le in H1, H2; change (ch "A") with 65%N in *;
      change (ch "G") with 71%N in *; change (ch "a") with 97%N in *;
      change (ch "g") with 103%N in *; cbn [In]; lia. }
  cbn [In] in Hn.
  repeat (destruct Hn as [<-|Hn]; [split; vm_compute; reflexivity|]).
  contradiction.
Qed.

Lemma separator_class (sep : char) :
  sep = ch "-" \/ sep = ch ":" ->
  class_i RE.dash_or_colon sep = true /\ isspace sep = false.
Proof. intros [->| ->]; split; vm_compute; reflexivity. Qed.

Lemma one_more (p : nat) : S p - p = 1.
Proof. lia. Qed.

Lemma two_more (p : nat) : S (S p) - p = 2.
Proof. lia. Qed.

(** The marker, read at its first character: the word, white space, a dash
    or a colon, white space, and the note, which is the group. *)
Lemma key_marker_run (w ws1 ws2 after : str) (sep n : char) (i : nat) :
  map lower w = map lower (txt "key") ->
  sep = ch "-" \/ sep = ch ":" ->
  ws1 <> [] -> forallb isspace ws1 = true ->
  ws2 <> [] -> forallb isspace ws2 = true ->
  note_letter n = true ->
  exists c,
    run RE.KEY (Cursor i (w ++ ws1 ++ [sep] ++ ws2 ++ [n] ++ after) []) Some
    = Some c
    /\ groups c = [(1, note_text n after)].
Proof.
  intros Hw Hsep Hne1 Hws1 Hne2 Hws2 Hn.
  destruct (note_letter_class n Hn) as [Hcl Hsp].
  destruct (separator_class Hsep) as [Hd Hds].
  assert (Hnote : exists c,
            run (Group 1 (cat [Chr (class_i (between "A" "G"));
                               Opt (Chr (class_i (one_of (txt "#b"))))]))
                (Cursor (i + length w + length ws1 + 1 + length ws2)
                        ([n] ++ after) []) Some
            = Some c
            /\ groups c = [(1, note_text n after)]).
  { cbn [run cat rest pos groups app]. rewrite Hcl. unfold note_text.
    destruct after as [|x after]; cbn [run rest pos groups].
    - eexists; split; [reflexivity|]. cbn [groups]. now rewrite one_more.
    - destruct (class_i (one_of (txt "#b")) x).
      + eexists; split; [reflexivity|]. cbn [groups]. now rewrite two_more.
      + eexists; split; [reflexivity|]. cbn [groups]. now rewrite one_more. }
  destruct Hnote as (c & Hc & Hg). exists c. split; [|exact Hg].
  unfold RE.KEY.
  rewrite RegexFacts.run_cat_cons, RegexFacts.run_lit_i by exact Hw.
  rewrite RegexFacts.run_cat_cons.
  apply run_plus_greedy; [exact Hne1|exact Hws1|exact Hds|].
  rewrite RegexFacts.run_cat_cons. cbn [run rest pos groups app].
  rewrite Hd. rewrite RegexFacts.run_cat_cons.
  apply run_plus_greedy; [exact Hne2|exact Hws2|exact Hsp|].
  cbn [cat]. rewrite <- Hc. f_equal. f_equal. lia.
Qed.

End KeyMarker.

Lemma slice_to_app (pre s : str) :
  slice_to (pre ++ s) (Z.of_nat (length pre)) = pre.
Proof.
  unfold slice_to.
  destruct (Z.ltb_spec (Z.of_nat (length pre)) 0) as [H|_]; [lia|].
  rewrite Nat2Z.id.
  induction pre as [|x pre IH]; simpl; [reflexivity|now rewrite IH].
Qed.

(** A line reaches the preamble branch when no license number is
    recorded, the line holds none, it is no header and no chord line, and
    no section is open. *)
Lemma step_preamble (st : scan) (line : str) :
  truthy (ccli (the_song st)) = false ->
  Regex.re_search RE.CCLI line = None ->
  Regex.re_match RE.SECTION line = None ->
  is_chord_line (tokenise_chords line) = Ok false ->
  truthy (section_name st) = false ->
  step st line
  = Ok (Scan (preamble (the_song st) line) (section_name st)
             (section_lines st) (chord_line st) (superscript_line st)).
Proof.
  intros H1 H2 H3 H4 H5. unfold step.
  rewrite H1, H2, H3, H4. cbn [bind]. now rewrite H5.
Qed.

(** C8, as the claim has it, fails: on ["Amazing Grace key: G"], with the
    colon right after the word, nothing is extracted, neither key nor
    title; the same line with [key - G] gives both. *)
Lemma key_colon_without_space_is_not_a_marker :
  preamble empty_song (txt "Amazing Grace key: G") = empty_song
  /\ step start (txt "Amazing Grace key: G") = Ok start
  /\ key (preamble empty_song (txt "Amazing Grace key - G"))
     = Some (txt "G")
  /\ title (preamble empty_song (txt "Amazing Grace key - G"))
     = Some (txt "Amazing Grace").
Proof. repeat split; vm_compute; reflexivity. Qed.

(** C8, amended.  Take a preamble line made of a title, the word [key] in
    any case, white space, a colon or a dash, white space, and a note letter
    from A to G in either case, where no marker begins inside the title.
    The extraction sets the key to the note (its letter, with the [#] or [b]
    that follows it if there is one) and the title to the stripped text
    before the marker; the colon and the dash give the same result. *)
Theorem key_marker_sets_key_and_title (s : song)
    (title_text w ws1 ws2 after : str) (sep n : char) :
  let line := title_text ++ w ++ ws1 ++ [sep] ++ ws2 ++ [n] ++ after in
  map Regex.lower w = txt "key" ->
  sep = ch "-" \/ sep = ch ":" ->
  ws1 <> [] -> forallb isspace ws1 = true ->
  ws2 <> [] -> forallb isspace ws2 = true ->
  note_letter n = true ->
  (forall j, j < length title_text ->
     Regex.match_at RE.KEY j (skipn j line) = None) ->
  preamble s line
  = set_title (set_key s (Some (note_text n after)))
              (Some (strip title_text)).
Proof.
  intros line Hw Hsep Hne1 Hws1 Hne2 Hws2 Hn Hno.
  destruct (@KeyMarker.key_marker_run w ws1 ws2 after sep n
              (0 + length title_text))
    as (c & Hc & Hg); auto.
  assert (Hs : Regex.re_search RE.KEY line
               = Some (Regex.Match (0 + length title_text) (Regex.pos c)
                                   (Regex.groups c))).
  { unfold Regex.re_search, line.
    apply RegexFacts.search_from_skip; [exact Hno|].
    unfold Regex.match_at. now rewrite Hc. }
  unfold preamble. rewrite Hs. unfold Regex.group.
  cbn [Regex.captured Regex.span_start]. rewrite Hg.
  cbn [Regex.group_of Nat.eqb Nat.add].
  unfold line. now rewrite slice_to_app.
Qed.

Lemma key_marker_sets_key_and_title_witness :
  let line := txt "Amazing Grace " ++ txt "Key" ++ txt " " ++ [ch ":"]
              ++ txt " " ++ [ch "G"] ++ txt "" in
  map Regex.lower (txt "Key") = txt "key"
  /\ (ch ":" = ch "-" \/ ch ":" = ch ":")
  /\ txt " " <> []
  /\ forallb isspace (txt " ") = true
  /\ note_letter (ch "G") = true
  /\ (forall j, j < length (txt "Amazing Grace ") ->
        Regex.match_at RE.KEY j (skipn j line) = None)
  /\ preamble empty_song line
     = set_title (set_key empty_song (Some (note_text (ch "G") (txt ""))))
                 (Some (strip (txt "Amazing Grace "))).
Proof.
  intros line.
  assert (Hno : forall j, j < length (txt "Amazing Grace ") ->
                  Regex.match_at RE.KEY j (skipn j line) = None).
  { intros j Hj. cbn [txt length] in Hj.
    do 14 (destruct j as [|j]; [vm_compute; reflexivity|]). lia. }
  split; [vm_compute; reflexivity|]. split; [now right|].
  split; [discriminate|]. split; [vm_compute; reflexivity|].
  split; [vm_compute; reflexivity|]. split; [exact Hno|].
  apply (@key_marker_sets_key_and_title empty_song (txt "Amazing Grace ")
           (txt "Key") (txt " ") (txt " ") (txt "") (ch ":") (ch "G"));
    try (vm_compute; reflexivity); try discriminate;
    [now right|exact Hno].
Defined.

Example key_with_spaced_colon :
  step start (txt "Amazing Grace key : Bb")
  = Ok (Scan (Song (Some (txt "Amazing Grace")) (Some (txt "Bb")) None None
                   None None [] [] (txt "pdf"))
             None [] None None).
Proof. vm_compute. reflexivity. Qed.

(** * Further properties of the code *)

(** ** The columns of the tokens *)

Lemma chord_indicies_loop_ascending (s : str) (toks : list str) :
  segments s toks ->
  forall pre,
    ascending (len pre) (len (pre ++ s))
              (chord_indicies_loop (pre ++ s) (len pre) toks).
Proof.
  induction 1 as [g Hg|g c t s toks Hg Hc _ IH]; intros pre;
    cbn [chord_indicies_loop ascending]; [exact I|].
  rewrite slice_from_app. unfold find. rewrite find_from_gap by assumption.
  pose proof (len_nonneg g) as Hlen.
  destruct (Z.eqb_spec (0 + len g) (-1)) as [E|_]; [lia|].
  cbn [ascending fst snd].
  specialize (IH (pre ++ g ++ c :: t)).
  replace ((pre ++ g ++ c :: t) ++ s) with (pre ++ g ++ (c :: t) ++ s) in IH
    by (now rewrite <- !app_assoc).
  replace (len (pre ++ g ++ c :: t))
    with (len pre + (0 + len g) + len (c :: t))%Z in IH
    by (rewrite !len_app; lia).
  repeat split; [lia|discriminate| |exact IH].
  rewrite !len_app. pose proof (len_nonneg s). lia.
Qed.

(** X1.  Whatever the line, the columns that [chord_indicies] yields go up
    from one token to the next and the tokens do not overlap: every token
    begins at or after the end of the one before, none is empty, and all of
    them lie inside the line. *)
Theorem chord_indicies_ascending (line : str) :
  ascending 0 (len line) (chord_indicies line).
Proof.
  exact (chord_indicies_loop_ascending (tokenise_chords_segments line) []).
Qed.

(** ** The loop of [chordpro_line] ends *)

Lemma skip_spaces_keeps (budget : nat) :
  forall it i c last_char,
    lyric_at it i c ->
    let r := skip_spaces budget it i c last_char in
    let it' := fst (fst (fst r)) in
    let i' := snd (fst (fst r)) in
    let c' := snd (fst r) in
    lyric_at it' i' c'
    /\ (i <= i' <= i + Z.of_nat budget)%Z
    /\ (lyric_left it' c' + (i' - i) = lyric_left it c)%Z.
Proof.
  induction budget as [|b IH]; intros it i c last_char H;
    cbn [skip_spaces].
  - cbn. repeat split; try apply H; lia.
  - destruct c as [x|]; cbn [is_char].
    2:{ cbn. repeat split; try apply H; lia. }
    destruct (N.eqb x SPACE).
    2:{ cbn. repeat split; try apply H; lia. }
    destruct H as (H0 & Hc & _).
    unfold next_char.
    destruct it as [n cs]. cbn [count chars] in *.
    destruct cs as [|y cs].
    + specialize (IH (LineIter (n + 1) []) n None (Some x)).
      cbn zeta in IH. destruct IH as (I1 & I2 & I3).
      { unfold lyric_at. cbn [count chars]. repeat split; auto; lia. }
      split; [exact I1|]. split; [lia|].
      unfold lyric_left in *. cbn [chars len length] in *.
      unfold len in *. cbn [length] in *. lia.
    + specialize (IH (LineIter (n + 1) cs) n (Some y) (Some x)).
      cbn zeta in IH. destruct IH as (I1 & I2 & I3).
      { unfold lyric_at. cbn [count chars]. repeat split; try lia.
        discriminate. }
      split; [exact I1|]. split; [lia|].
      unfold lyric_left in *. cbn [chars] in *.
      unfold len in *. cbn [length] in *. lia.
Qed.

Lemma ends_with_chord_nonempty (output : list str) :
  Forall (fun s => s <> []) output -> exists b, ends_with_chord output = Ok b.
Proof.
  intros H. unfold ends_with_chord.
  destruct (rev output) as [|s r] eqn:E; [now eexists|].
  assert (Hin : In s output) by (apply in_rev; rewrite E; now left).
  rewrite Forall_forall in H. specialize (H s Hin).
  unfold getitem_last. destruct (rev s) as [|z t] eqn:Es.
  - apply (f_equal (@length _)) in Es. rewrite length_rev in Es.
    destruct s; [contradiction|discriminate].
  - cbn [bind]. now eexists.
Qed.

Lemma emit_chord_nonempty (output : list str) (chord : str) c last_char :
  Forall (fun s => s <> []) output ->
  exists output',
    emit_chord output chord c last_char = Ok output'
    /\ Forall (fun s => s <> []) output'.
Proof.
  intros H. unfold emit_chord.
  destruct (startswith chord (txt "(") && endswith chord (txt ")")).
  - eexists; split; [reflexivity|].
    apply Forall_app; split; [exact H|]. constructor; [|constructor].
    discriminate.
  - destruct (ends_with_chord_nonempty H) as [b ->]. cbn [bind].
    eexists; split; [reflexivity|].
    apply Forall_app; split; [|constructor; [discriminate|constructor]].
    destruct b; [|destruct (is_char c SPACE && negb (is_char last_char SPACE))];
      try exact H;
      (apply Forall_app; split; [exact H|]; constructor;
       [discriminate|constructor]).
Qed.

(** With the chord that waits ahead of the lyric column, the loop ends
    within [turns_left] turns, and without an exception. *)
Lemma merge_loop_ends (fuel : nat) :
  forall g it output index chord i c last_char bound,
    chord_ahead bound i index chord g ->
    lyric_at it i c ->
    Forall (fun s => s <> []) output ->
    (turns_left bound i index chord it c <= Z.of_nat fuel)%Z ->
    exists out,
      merge_loop fuel g it output index chord i c last_char = Some (Ok out).
Proof.
  induction fuel as [|fuel IH];
    intros g it output index chord i c last_char bound Hch Hly Hout Hfuel.
  - (* no turn left: the loop is at its end *)
    destruct chord as [t|]; cbn [chord_ahead] in Hch.
    + destruct Hch as (Ht & Hi & Hb & _).
      pose proof (len_nonneg (chars it)) as Hl.
      assert (0 < len t)%Z
        by (destruct t; [contradiction|unfold len; cbn [length]; lia]).
      unfold turns_left, lyric_left in Hfuel. destruct c; lia.
    + destruct c as [x|].
      * pose proof (len_nonneg (chars it)) as Hl.
        unfold turns_left, lyric_left in Hfuel. lia.
      * cbn. now eexists.
  - destruct chord as [t|]; cbn [chord_ahead] in Hch.
    + destruct Hch as (Ht & Hi & Hb & Ha).
      destruct t as [|x t]; [contradiction|].
      cbn [merge_loop truthy nonempty orb negb].
      pose proof (len_nonneg (chars it)) as Hl.
      assert (Hlt : len (x :: t) = (Z.of_nat (length (x :: t))))
        by reflexivity.
      assert (0 < len (x :: t))%Z by (unfold len; cbn [length]; lia).
      destruct (Z.eqb_spec i index) as [->|Hne].
      * destruct (emit_chord_nonempty (x :: t) c last_char Hout)
          as (output' & -> & Hout').
        pose proof (skip_spaces_keeps (length (x :: t)) last_char Hly)
          as Hskip.
        destruct (skip_spaces (length (x :: t)) it index c last_char)
          as [[[it' i'] c'] last'].
        cbn [fst snd] in Hskip. cbn zeta in Hskip.
        destruct Hskip as (Hly' & Hi' & Hleft).
        destruct g as [|[o t'] g'|e]; cbn [ascending fst snd] in Ha;
          [| |contradiction]; cbn [next_chord].
        -- apply (IH _ _ _ _ _ _ _ _ bound); auto.
           ++ now split.
           ++ unfold turns_left in *. lia.
        -- destruct Ha as (Ho & Ht' & Hb' & Ha').
           apply (IH _ _ _ _ _ _ _ _ bound); auto.
           ++ cbn [chord_ahead]. repeat split; auto. lia.
           ++ unfold turns_left in *.
              assert (0 < len t')%Z
                by (destruct t'; [contradiction|unfold len; cbn [length]; lia]).
              lia.
      * destruct Hly as (H0 & Hcount & Hnone).
        destruct it as [n cs]. cbn [count chars] in *.
        unfold next_char. cbn [count chars].
        destruct cs as [|y cs]; destruct c as [z|];
          (apply (IH _ _ _ _ _ _ _ _ bound);
           [ cbn [chord_ahead]; repeat split; auto; lia
           | unfold lyric_at; cbn [count chars]; repeat split;
             try lia; try discriminate; auto
           | apply Forall_app; split; [exact Hout|];
             constructor; [discriminate|constructor]
           | unfold turns_left, lyric_left in *; cbn [chars] in *;
             unfold len in *; cbn [length] in *; lia ]).
    + destruct Hch as [-> ->].
      destruct c as [z|]; [|cbn; now eexists].
      cbn [merge_loop truthy orb negb].
      destruct Hly as (H0 & Hcount & Hnone).
      destruct (Z.eqb_spec i (-1)) as [E|_]; [lia|].
      destruct it as [n cs]. cbn [count chars] in *.
      unfold next_char. cbn [count chars].
      destruct cs as [|y cs];
        (apply (IH _ _ _ _ _ _ _ _ bound);
         [ now split
         | unfold lyric_at; cbn [count chars]; repeat split;
           try lia; try discriminate; auto
         | apply Forall_app; split; [exact Hout|];
           constructor; [discriminate|constructor]
         | unfold turns_left, lyric_left in *; cbn [chars] in *;
           unfold len in *; cbn [length] in *; lia ]).
Qed.

Lemma chordpro_line_ends (fuel : nat) (chord_line lyric_line : option str) :
  enough_fuel chord_line lyric_line <= fuel ->
  exists r,
    chordpro_line fuel chord_line lyric_line = Some (Ok r)
    /\ (r = None -> lyric_line = None /\ truthy chord_line = false).
Proof.
  intros Hfuel. unfold chordpro_line.
  destruct chord_line as [[|c cl]|]; destruct lyric_line as [[|l ll]|];
    try (eexists; split; [reflexivity|]; intros E;
         try discriminate E; now split).
  pose proof (chord_indicies_loop_ascending
                (tokenise_chords_segments (c :: cl)) []) as Ha.
  change (ascending 0 (len (c :: cl)) (chord_indicies (c :: cl))) in Ha.
  unfold enough_fuel, olen in Hfuel.
  assert (Hlen : len (c :: cl) = Z.of_nat (length (c :: cl))) by reflexivity.
  assert (Hll : len ll = Z.of_nat (length ll)) by reflexivity.
  cbn [length] in Hfuel.
  cbn [next_char chars count].
  destruct (chord_indicies (c :: cl)) as [|[o t] g|e];
    cbn [ascending fst snd] in Ha; [| |contradiction]; cbn [next_chord].
  - destruct (@merge_loop_ends fuel Stop (LineIter (0 + 1) ll) (@nil str) (-1)%Z None
                0%Z (Some l) None (len (c :: cl))) as [out ->].
    + now split.
    + unfold lyric_at. cbn [count chars]. repeat split; try lia. discriminate.
    + constructor.
    + unfold turns_left, lyric_left. cbn [chars]. cbn [length] in Hlen. lia.
    + eexists; split; [reflexivity|discriminate].
  - destruct Ha as (Ho & Ht & Hb & Ha).
    destruct (@merge_loop_ends fuel g (LineIter (0 + 1) ll) (@nil str) o (Some t)
                0%Z (Some l) None (len (c :: cl))) as [out ->].
    + cbn [chord_ahead]. now repeat split.
    + unfold lyric_at. cbn [count chars]. repeat split; try lia. discriminate.
    + constructor.
    + unfold turns_left, lyric_left. cbn [chars]. cbn [length] in Hlen. lia.
    + eexists; split; [reflexivity|discriminate].
Qed.

(** X2.  [chordpro_line] returns on every pair of lines: its loop ends
    within [2 * len(chord_line) + len(lyric_line) + 1] turns and nothing is
    raised, neither by the indexer nor by the look at the last piece put
    out.  The result is [None] only when there is no lyric line and the
    chord line is empty or [None]. *)
Theorem chordpro_line_returns (fuel : nat) (chord_line lyric_line : option str) :
  enough_fuel chord_line lyric_line <= fuel ->
  exists r,
    chordpro_line fuel chord_line lyric_line = Some (Ok r)
    /\ (r = None -> lyric_line = None /\ truthy chord_line = false).
Proof.
  intros H. destruct (chordpro_line_ends chord_line lyric_line H) as (r & E & Hr).
  exists r. now split.
Qed.

Lemma chordpro_line_returns_witness :
  enough_fuel (Some (txt "Am  | (To Chorus) G")) (Some (txt "la  la la"))
  <= 50
  /\ exists r,
       chordpro_line 50 (Some (txt "Am  | (To Chorus) G"))
                     (Some (txt "la  la la")) = Some (Ok r)
       /\ (r = None ->
           Some (txt "la  la la") = None
           /\ truthy (Some (txt "Am  | (To Chorus) G")) = false).
Proof.
  split; [vm_compute; lia|].
  apply (@chordpro_line_returns 50 (Some (txt "Am  | (To Chorus) G"))
           (Some (txt "la  la la"))).
  vm_compute; lia.
Defined.

(** ** The squeeze of the spaces *)

Lemma squeeze_spaces_again (s : str) :
  forall n, squeeze_spaces (squeeze_spaces s n) n = squeeze_spaces s n.
Proof.
  induction s as [|c s IH]; intros n; cbn [squeeze_spaces]; [reflexivity|].
  destruct (N.eqb c SPACE) eqn:Ec.
  - destruct (Nat.leb 4 n) eqn:En; [apply IH|].
    cbn [squeeze_spaces]. now rewrite Ec, En, IH.
  - cbn [squeeze_spaces]. now rewrite Ec, IH.
Qed.

(** The number of spaces a text begins with. *)
Lemma squeeze_spaces_run (s : str) :
  forall n k,
    n <= 4 ->
    startswith (squeeze_spaces s n) (repeat SPACE k) = true ->
    n + k <= 4.
Proof.
  induction s as [|c s IH]; intros n k Hn H.
  - destruct k; [lia|discriminate].
  - destruct k as [|k]; [lia|]. cbn [squeeze_spaces] in H.
    destruct (N.eqb_spec c SPACE) as [->|Hc].
    + destruct (Nat.leb_spec 4 n) as [H4|H4].
      * assert (n = 4) by lia. subst n.
        apply (IH 4 (S k)) in H; lia.
      * cbn [repeat startswith] in H. apply andb_true_iff in H as [_ H].
        apply (IH (S n) k) in H; lia.
    + cbn [repeat startswith] in H. apply andb_true_iff in H as [H _].
      apply N.eqb_eq in H. congruence.
Qed.

(** Where the squeezed text is cut, five spaces do not follow. *)
Lemma squeeze_spaces_cut (s : str) :
  forall n before after,
    n <= 4 ->
    squeeze_spaces s n = before ++ after ->
    startswith after (repeat SPACE 5) = true ->
    before = [] /\ 1 <= n.
Proof.
  induction s as [|c s IH]; intros n before after Hn E H.
  - cbn in E. destruct before; [|discriminate]. cbn in E. subst after.
    discriminate.
  - destruct before as [|b before].
    + cbn [app] in E. subst after. split; [reflexivity|].
      apply (squeeze_spaces_run (c :: s) 5 Hn) in H. lia.
    + exfalso. cbn [squeeze_spaces app] in E.
      destruct (N.eqb c SPACE).
      * destruct (Nat.leb_spec 4 n) as [H4|H4].
        -- assert (n = 4) by lia. subst n.
           destruct (IH 4 (b :: before) after Hn E H) as [E' _].
           discriminate.
        -- injection E as _ E.
           destruct (IH (S n) before after ltac:(lia) E H) as [-> _].
           cbn [app] in E. subst after.
           apply (squeeze_spaces_run s 5) in H; lia.
      * injection E as _ E.
        destruct (IH 0 before after ltac:(lia) E H) as [_ H1]. lia.
Qed.

Lemma squeeze_spaces_no_five (s before after : str) :
  squeeze_spaces s 0 = before ++ after ->
  startswith after (repeat SPACE 5) = false.
Proof.
  intros E.
  destruct (startswith after (repeat SPACE 5)) eqn:H; [|reflexivity].
  destruct (squeeze_spaces_cut s before after (Nat.le_0_l 4) E H) as [_ H1].
  lia.
Qed.

(** X3.  The squeeze of the spaces that ends [chordpro_line]
    ([re.sub(r'    +', '    ', ...)]) changes nothing when it is done a
    second time, and what it returns has no five spaces in a row, wherever
    one looks. *)
Theorem squeeze_spaces_idempotent (s : str) :
  squeeze_spaces (squeeze_spaces s 0) 0 = squeeze_spaces s 0
  /\ forall before after,
       squeeze_spaces s 0 = before ++ after ->
       startswith after (repeat SPACE 5) = false.
Proof.
  split; [apply squeeze_spaces_again|].
  intros before after E. exact (squeeze_spaces_no_five s before after E).
Qed.

(** ** What the tokenizer does with brackets and with blanks *)





Lemma tokenise_loop_plain (line : str) :
  forall chords chord,
    forallb (fun c => match brackets c with None => true | Some _ => false end)
            line = true ->
    forallb (fun c => negb (is_separator c)) chord = true ->
    let toks := tokenise_loop line [] chord None in
    Forall (fun t => t = [ch "|"]
                     \/ forallb (fun c => negb (is_separator c)) t = true)
           toks
    /\ concat (tokenise_loop line chords chord None)
       = concat chords ++ chord
         ++ filter (fun c => negb (is_blank c)) line.
Proof.
  induction line as [|c line IH]; intros chords chord Hb Hc;
    cbn [tokenise_loop filter].
  - unfold flush_chord. destruct chord as [|x chord]; cbn [nonempty].
    + split; [constructor|]. now rewrite !app_nil_r.
    + split; [constructor; [now right|constructor]|].
      rewrite concat_app. cbn [concat]. now rewrite !app_nil_r.
  - cbn [forallb] in Hb. apply andb_true_iff in Hb as [Hbc Hb].
    destruct (brackets c); [discriminate|].
    destruct (is_separator c) eqn:Es.
    + destruct (IH [] [] Hb eq_refl) as [IH1 _].
      rewrite (tokenise_loop_from_nil line (if N.eqb c (ch "|") then _ else _)).
      rewrite (tokenise_loop_from_nil line
                 (if N.eqb c (ch "|") then flush_chord chords chord ++ _
                  else flush_chord chords chord)).
      destruct (IH [] [] Hb eq_refl) as [_ IH2].
      cbn [concat app] in IH2.
      split.
      * apply Forall_app; split; [|exact IH1].
        unfold flush_chord.
        destruct (N.eqb c (ch "|")); destruct chord; cbn [nonempty app];
          repeat (apply Forall_cons || apply Forall_nil); auto.
      * rewrite concat_app, IH2.
        destruct (separator_cases _ Es) as [->|Hbl].
        -- rewrite N.eqb_refl. change (is_blank (ch "|")) with false.
           cbn [negb]. unfold flush_chord.
           destruct chord; cbn [nonempty];
             repeat first [ rewrite concat_app | rewrite app_nil_r
                          | rewrite <- app_assoc
                          | progress cbn [concat app] ];
             reflexivity.
        -- destruct (N.eqb_spec c (ch "|")) as [->|_]; [discriminate|].
           rewrite Hbl. cbn [negb]. unfold flush_chord.
           destruct chord; cbn [nonempty];
             repeat first [ rewrite concat_app | rewrite app_nil_r
                          | rewrite <- app_assoc
                          | progress cbn [concat app] ];
             reflexivity.
    + rewrite (not_separator_not_blank _ Es). cbn [negb].
      assert (Hc' : forallb (fun c => negb (is_separator c)) (chord ++ [c])
                    = true).
      { rewrite forallb_app, Hc. cbn [forallb andb]. now rewrite Es. }
      destruct (IH chords (chord ++ [c]) Hb Hc') as [IH1 IH2].
      split; [exact IH1|]. rewrite IH2. now rewrite <- !app_assoc.
Qed.

(** X5.  On a line without an opening bracket the tokenizer splits at the
    separators and loses nothing else: every token is the bar or holds no
    separator, and the tokens put together are the line without its blanks
    (spaces, tabs, line feeds, carriage returns). *)
Theorem tokenise_chords_plain (line : str) :
  forallb (fun c => match brackets c with None => true | Some _ => false end)
          line = true ->
  Forall (fun t => t = [ch "|"]
                   \/ forallb (fun c => negb (is_separator c)) t = true)
         (tokenise_chords line)
  /\ concat (tokenise_chords line) = filter (fun c => negb (is_blank c)) line.
Proof.
  intros H. destruct (tokenise_loop_plain line [] [] H eq_refl) as [H1 H2].
  split; [exact H1|exact H2].
Qed.

Lemma tokenise_chords_plain_witness :
  forallb (fun c => match brackets c with None => true | Some _ => false end)
          (txt "Am |G/B  x") = true
  /\ Forall (fun t => t = [ch "|"]
                      \/ forallb (fun c => negb (is_separator c)) t = true)
            (tokenise_chords (txt "Am |G/B  x"))
  /\ concat (tokenise_chords (txt "Am |G/B  x"))
     = filter (fun c => negb (is_blank c)) (txt "Am |G/B  x").
Proof.
  split; [reflexivity|].
  apply (tokenise_chords_plain (txt "Am |G/B  x")). reflexivity.
Defined.

Lemma segments_nonblank (s : str) (t : str) (toks : list str) :
  segments s (t :: toks) -> forallb is_blank s = false.
Proof.
  intros H. inversion H as [|g c t' s' toks' Hg Hc Hs]; subst.
  rewrite forallb_app. rewrite Hg. cbn [app forallb andb]. now rewrite Hc.
Qed.

(** X6.  The tokenizer returns no token exactly for the lines that are
    made of blanks only, the empty line among them. *)
Theorem no_token_iff_blank (line : str) :
  tokenise_chords line = [] <-> forallb is_blank line = true.
Proof.
  pose proof (tokenise_chords_segments line) as H. split; intros E.
  - rewrite E in H. now inversion H.
  - destruct (tokenise_chords line) as [|t toks]; [reflexivity|].
    apply segments_nonblank in H. congruence.
Qed.

(** ** The vote of [is_chord_line] *)

Lemma count_tokens_counts (tokens : list str) :
  Forall (fun t => t <> []) tokens ->
  forall chords not_chords,
    let like := fun t => match chord_like t with Ok b => b | Raise _ => false end in
    count_tokens tokens chords not_chords
    = Ok (chords + length (filter like tokens),
          not_chords + length (filter (fun t => negb (like t)) tokens)).
Proof.
  induction 1 as [|t tokens Ht _ IH]; intros chords not_chords like;
    cbn [count_tokens filter length].
  - now rewrite !Nat.add_0_r.
  - subst like. cbn beta in *.
    destruct (chord_like_total Ht) as [b Hb]. rewrite Hb. cbn [bind].
    destruct b; cbn [negb length]; rewrite IH; f_equal; f_equal; lia.
Qed.

(** X7.  On tokens that are not empty, as the tokenizer gives them,
    [is_chord_line] is a strict majority vote that does not depend on the
    order of the tokens: the answer is yes exactly when the tokens that are
    a bar, begin with [(], end with [)] or match the chord grammar are more
    than the other tokens.  A tie is a no. *)
Theorem is_chord_line_majority (tokens : list str) :
  Forall (fun t => t <> []) tokens ->
  let like := fun t => match chord_like t with Ok b => b | Raise _ => false end in
  is_chord_line tokens
  = Ok (Nat.ltb (length (filter (fun t => negb (like t)) tokens))
                (length (filter like tokens))).
Proof.
  intros H like. unfold is_chord_line.
  rewrite (count_tokens_counts H 0 0). reflexivity.
Qed.

Lemma is_chord_line_majority_witness :
  Forall (fun t => t <> []) [txt "Am"; txt "word"]
  /\ is_chord_line [txt "Am"; txt "word"]
     = Ok (Nat.ltb
             (length (filter (fun t => negb (match chord_like t with
                                              | Ok b => b
                                              | Raise _ => false
                                              end))
                             [txt "Am"; txt "word"]))
             (length (filter (fun t => match chord_like t with
                                       | Ok b => b
                                       | Raise _ => false
                                       end)
                             [txt "Am"; txt "word"]))).
Proof.
  assert (H : Forall (fun t : str => t <> []) [txt "Am"; txt "word"])
    by (repeat constructor; discriminate).
  split; [exact H|]. exact (is_chord_line_majority H).
Defined.

Example tie_is_no_chord_line :
  is_chord_line [txt "Am"; txt "word"] = Ok false
  /\ is_chord_line [txt "|"; txt "|"; txt "|"] = Ok true
  /\ is_chord_line [] = Ok false.
Proof. repeat split; vm_compute; reflexivity. Qed.

(** ** What the superscript merger returns *)

Lemma join_items_some (x : char) (more : list (option char)) (r : str) :
  join_items more = Ok r -> join_items (Some x :: more) = Ok (x :: r).
Proof. intros H. cbn [join_items]. now rewrite H. Qed.

(** X8.  A superscript line that is not longer than the chord line is
    merged, no exception is raised, and nothing of the chord line is lost in
    length: the merged line is at least as long as the chord line and at
    most as long as both lines together. *)
Theorem fix_superscript_line_merges (superscript : str) :
  forall chords,
    length superscript <= length chords ->
    exists merged,
      fix_superscript_line superscript chords = Ok merged
      /\ length chords <= length merged
      /\ length merged <= length chords + length superscript.
Proof.
  unfold fix_superscript_line.
  induction superscript as [|x superscript IH]; intros chords H.
  - destruct chords as [|y chords].
    + exists []. cbn. repeat split; lia.
    + cbn [zip_longest flat_map superscript_column app].
      pose proof (fix_superscript_line_chords_only chords) as E.
      rewrite (join_items_some y _ E).
      eexists; split; [reflexivity|]. cbn [length]. lia.
  - destruct chords as [|y chords]; [simpl in H; lia|].
    destruct (IH chords) as (merged & Hm & H1 & H2); [simpl in H; lia|].
    cbn [zip_longest flat_map superscript_column].
    destruct (N.eqb x SPACE); [|destruct (N.eqb y SPACE)]; cbn [app].
    + rewrite (join_items_some y _ Hm).
      eexists; split; [reflexivity|]; cbn [length]; lia.
    + rewrite (join_items_some x _ Hm).
      eexists; split; [reflexivity|]; cbn [length]; lia.
    + rewrite (join_items_some x _ (join_items_some y _ Hm)).
      eexists; split; [reflexivity|]; cbn [length]; lia.
Qed.

Lemma fix_superscript_line_merges_witness :
  length (txt " 6") <= length (txt "A /B")
  /\ exists merged,
       fix_superscript_line (txt " 6") (txt "A /B") = Ok merged
       /\ length (txt "A /B") <= length merged
       /\ length merged <= length (txt "A /B") + length (txt " 6").
Proof.
  split; [cbn; lia|].
  apply (fix_superscript_line_merges (txt " 6") (txt "A /B")). cbn; lia.
Defined.

(** X9.  A superscript line of spaces only, not longer than the chord
    line, changes nothing: the chord line comes back as it is. *)
Theorem fix_superscript_line_blank (superscript : str) :
  forall chords,
    forallb (N.eqb SPACE) superscript = true ->
    length superscript <= length chords ->
    fix_superscript_line superscript chords = Ok chords.
Proof.
  unfold fix_superscript_line.
  induction superscript as [|x superscript IH]; intros chords Hs H.
  - destruct chords as [|y chords]; [reflexivity|].
    cbn [zip_longest flat_map superscript_column app].
    apply join_items_some. apply fix_superscript_line_chords_only.
  - destruct chords as [|y chords]; [simpl in H; lia|].
    cbn [forallb] in Hs. apply andb_true_iff in Hs as [Hx Hs].
    apply N.eqb_eq in Hx. subst x.
    cbn [zip_longest flat_map superscript_column]. rewrite N.eqb_refl.
    cbn [app]. apply join_items_some. apply IH; [exact Hs|simpl in H; lia].
Qed.

Lemma fix_superscript_line_blank_witness :
  forallb (N.eqb SPACE) (txt "  ") = true
  /\ length (txt "  ") <= length (txt "A /B")
  /\ fix_superscript_line (txt "  ") (txt "A /B") = Ok (txt "A /B").
Proof.
  split; [reflexivity|]. split; [cbn; lia|].
  apply (fix_superscript_line_blank (txt "  ") (txt "A /B"));
    [reflexivity|cbn; lia].
Defined.

(** ** What the scan keeps *)

Lemma has_key_false {V} (d : list (str * V)) (k : str) :
  has_key d k = false -> ~ In k (map fst d).
Proof.
  unfold has_key. induction d as [|[k' v'] d IH]; cbn [existsb map In fst];
    [tauto|].
  intros H. apply orb_false_iff in H as [H1 H2].
  intros [->|Hin]; [|now apply IH].
  now rewrite (proj2 (str_eqb_eq k k) eq_refl) in H1.
Qed.

(** An assignment to a key that is there keeps the keys and their order;
    a new key goes to the end. *)
Lemma od_set_keys {V} (d : list (str * V)) (k : str) (v : V) :
  map fst (od_set d k v)
  = if has_key d k then map fst d else map fst d ++ [k].
Proof.
  unfold has_key. induction d as [|[k' v'] d IH];
    cbn [od_set existsb map fst app]; [reflexivity|].
  destruct (str_eqb k' k); cbn [orb map fst]; [reflexivity|].
  rewrite IH. now destruct (existsb _ d).
Qed.

Lemma od_set_nodup {V} (d : list (str * V)) (k : str) (v : V) :
  NoDup (map fst d) -> NoDup (map fst (od_set d k v)).
Proof.
  intros H. rewrite od_set_keys. destruct (has_key d k) eqn:E; [exact H|].
  apply NoDup_app; [exact H|repeat constructor; tauto|].
  intros x Hx [<-|[]]. exact (has_key_false _ _ E Hx).
Qed.

Lemma od_set_values {V} (P : V -> Prop) (d : list (str * V)) k v :
  Forall (fun p => P (snd p)) d -> P v ->
  Forall (fun p => P (snd p)) (od_set d k v).
Proof.
  intros H Hv. induction H as [|[k' v'] d Hp Hd IH]; cbn [od_set].
  - repeat constructor. exact Hv.
  - destruct (str_eqb k' k); constructor; auto.
Qed.

Lemma preamble_keeps (s : song) (line : str) :
  sections (preamble s line) = sections s
  /\ type (preamble s line) = type s
  /\ ccli (preamble s line) = ccli s
  /\ legal (preamble s line) = legal s.
Proof.
  unfold preamble.
  destruct (Regex.re_search RE.KEY line); [now cbn|].
  destruct (Regex.re_search RE.TIME line); [|now cbn].
  destruct (Regex.re_search RE.TEMPO line); now cbn.
Qed.

(** What one line does to the sections: it leaves the stored sections
    alone and keeps the pairs of the open section, or adds one pair with a
    lyric line to them; or it is a header, which stores the open section and
    opens an empty one. *)
Lemma step_effect (st st' : scan) (line : str) :
  step st line = Ok st' ->
  (sections (the_song st') = sections (the_song st)
   /\ type (the_song st') = type (the_song st)
   /\ (section_lines st' = section_lines st
       \/ exists l,
            section_lines st'
            = section_lines st ++ [(chord_line st, Some l)]))
  \/ (the_song st' = fst (close_section st) /\ section_lines st' = []).
Proof.
  unfold step.
  destruct (truthy (ccli (the_song st))).
  { intros E; injection E as <-. left. cbn. auto. }
  destruct (Regex.re_search RE.CCLI line).
  { intros E; injection E as <-. left. cbn. auto. }
  destruct (Regex.re_match RE.SECTION line).
  { intros E; injection E as <-. right. cbn. auto. }
  destruct (is_chord_line (tokenise_chords line)) as [chordy|e];
    [|discriminate]. cbn [bind].
  destruct chordy.
  { destruct (superscript_line st) as [sup|].
    - destruct (fix_superscript_line sup (rstrip line)); [|discriminate].
      cbn [bind]. intros E; injection E as <-. left. cbn. auto.
    - intros E; injection E as <-. left. cbn. auto. }
  destruct (truthy (section_name st)).
  { destruct (isdigit (strip line)); intros E; injection E as <-; left;
      cbn; eauto. }
  intros E; injection E as <-. left. cbn [the_song section_lines].
  destruct (preamble_keeps (the_song st) line) as (-> & -> & _). auto.
Qed.

Lemma close_section_keeps (st : scan) :
  type (fst (close_section st)) = type (the_song st)
  /\ (NoDup (map fst (sections (the_song st))) ->
      NoDup (map fst (sections (fst (close_section st)))))
  /\ (Forall renders (section_lines st) ->
      Forall (fun p => Forall renders (snd p)) (sections (the_song st)) ->
      Forall (fun p => Forall renders (snd p))
             (sections (fst (close_section st)))).
Proof.
  unfold close_section.
  destruct (section_name st) as [[|c name]|]; cbn [fst]; auto.
  unfold set_section. cbn [type sections]. split; [reflexivity|].
  split; [apply od_set_nodup|].
  intros H1 H2. apply (od_set_values (Forall renders)); [exact H2|].
  destruct (truthy (chord_line st)) eqn:E; [|exact H1].
  apply Forall_app; split; [exact H1|]. constructor; [|constructor].
  left. exact E.
Qed.


Lemma start_ok : scan_ok start.
Proof. unfold scan_ok, start. cbn. repeat split; constructor. Qed.

Lemma step_keeps (st st' : scan) (line : str) :
  step st line = Ok st' -> scan_ok st -> scan_ok st'.
Proof.
  intros E (H1 & H2 & H3 & H4).
  destruct (step_effect _ _ E) as [(Es & Et & Hl)|(Es & Hl)].
  - unfold scan_ok. rewrite Es, Et. repeat split; auto.
    destruct Hl as [->|(l & ->)]; [exact H2|].
    apply Forall_app; split; [exact H2|].
    constructor; [|constructor]. right. discriminate.
  - destruct (close_section_keeps st) as (Kt & Kn & Kr).
    unfold scan_ok. rewrite Es, Hl, Kt. repeat split; auto.
Qed.

Lemma scan_lines_keeps (lines : list str) :
  forall st st', scan_lines st lines = Ok st' -> scan_ok st -> scan_ok st'.
Proof.
  induction lines as [|line lines IH]; intros st st' E H;
    cbn [scan_lines] in E.
  - now injection E as <-.
  - destruct (step st line) as [st1|e] eqn:E1; [|discriminate].
    cbn [bind] in E. exact (IH _ _ E (step_keeps _ E1 H)).
Qed.

Lemma parse_lines_ok (lines : list str) (s : song) :
  parse_lines lines = Ok s ->
  NoDup (map fst (sections s))
  /\ Forall (fun p => Forall renders (snd p)) (sections s)
  /\ type s = txt "pdf".
Proof.
  unfold parse_lines. intros E.
  destruct (scan_lines start lines) as [st|e] eqn:Es; [|discriminate].
  cbn [bind] in E. injection E as <-.
  destruct (scan_lines_keeps _ Es start_ok) as (H1 & H2 & H3 & H4).
  destruct (close_section_keeps st) as (Kt & Kn & Kr).
  rewrite Kt. auto.
Qed.

(** X10.  Whatever the lines, the sections of the song that the scan gives
    have distinct names: a header that comes again does not add a second
    entry under its name. *)
Theorem section_names_distinct (lines : list str) (s : song) :
  parse_lines lines = Ok s -> NoDup (map fst (sections s)).
Proof. intros E. now destruct (parse_lines_ok _ E). Qed.

Lemma section_names_distinct_witness :
  parse_lines [txt "Chorus"; txt "la"; txt "Verse 1"; txt "lo";
               txt "Chorus"; txt "li"]
  = Ok (Song None None None None None None []
             [(txt "Chorus", [(None, Some (txt "li"))]);
              (txt "Verse 1", [(None, Some (txt "lo"))])]
             (txt "pdf"))
  /\ NoDup (map fst
       (sections (Song None None None None None None []
             [(txt "Chorus", [(None, Some (txt "li"))]);
              (txt "Verse 1", [(None, Some (txt "lo"))])]
             (txt "pdf")))).
Proof.
  assert (E : parse_lines [txt "Chorus"; txt "la"; txt "Verse 1"; txt "lo";
                           txt "Chorus"; txt "li"]
              = Ok (Song None None None None None None []
                      [(txt "Chorus", [(None, Some (txt "li"))]);
                       (txt "Verse 1", [(None, Some (txt "lo"))])]
                      (txt "pdf")))
    by (vm_compute; reflexivity).
  split; [exact E|]. exact (section_names_distinct _ E).
Defined.

(** ** What the scan raises *)

Lemma is_chord_line_of_line (line : str) :
  exists verdict, is_chord_line (tokenise_chords line) = Ok verdict.
Proof.
  assert (H : Forall (fun t : str => t <> []) (tokenise_chords line))
    by (apply tokenise_loop_nonempty; constructor).
  unfold is_chord_line.
  destruct (count_tokens_total H 0 0) as [n ->]. cbn [bind].
  eexists; reflexivity.
Qed.

Lemma step_raises (st : scan) (line : str) (e : exn) :
  step st line = Raise e ->
  e = TypeError
  /\ exists sup,
       superscript_line st = Some sup
       /\ length (rstrip line) < length sup.
Proof.
  unfold step.
  destruct (truthy (ccli (the_song st))); [discriminate|].
  destruct (Regex.re_search RE.CCLI line); [discriminate|].
  destruct (Regex.re_match RE.SECTION line); [discriminate|].
  destruct (is_chord_line_of_line line) as [chordy ->]. cbn [bind].
  destruct chordy.
  2:{ destruct (truthy (section_name st)); [|discriminate].
      destruct (isdigit (strip line)); discriminate. }
  destruct (superscript_line st) as [sup|]; [|discriminate].
  destruct (Nat.le_gt_cases (length sup) (length (rstrip line))) as [H|H].
  - destruct (fix_superscript_line_not_longer sup (rstrip line) H)
      as [merged ->]. discriminate.
  - rewrite (fix_superscript_line_longer sup (rstrip line) H).
    cbn [bind]. intros E; injection E as <-. split; [reflexivity|].
    now exists sup.
Qed.

Lemma scan_lines_raises (lines : list str) :
  forall st e,
    scan_lines st lines = Raise e ->
    e = TypeError
    /\ exists before line after st1 sup,
         lines = before ++ line :: after
         /\ scan_lines st before = Ok st1
         /\ superscript_line st1 = Some sup
         /\ length (rstrip line) < length sup.
Proof.
  induction lines as [|line lines IH]; intros st e E; cbn [scan_lines] in E;
    [discriminate|].
  destruct (step st line) as [st1|e1] eqn:E1; cbn [bind] in E.
  - destruct (IH _ _ E) as (He & before & l & after & st2 & sup
                              & -> & Hb & Hs & Hl).
    split; [exact He|].
    exists (line :: before), l, after, st2, sup.
    cbn [app scan_lines]. rewrite E1. cbn [bind]. auto.
  - injection E as <-. destruct (step_raises _ _ E1) as (He & sup & Hs & Hl).
    split; [exact He|]. exists [], line, lines, st, sup. auto.
Qed.



(** ** The rendering returns *)

Lemma join_with_texts (sep : str) (texts : list str) :
  exists s, join_with sep (map Some texts) = Ok s.
Proof.
  induction texts as [|t texts [s IH]]; [now exists []|].
  cbn [map join_with]. destruct texts as [|t' texts]; [now exists t|].
  cbn [map] in *. rewrite IH. cbn [bind]. now eexists.
Qed.

(** A call that returned keeps its result with more turns, so what a call
    returns with few turns is what it returns with enough of them. *)
Lemma chordpro_line_result (fuel : nat) (c l : option str) r :
  chordpro_line fuel c l = Some r ->
  exists text, r = Ok text /\ (renders (c, l) -> text <> None).
Proof.
  intros E.
  pose proof (@chordpro_line_more_fuel fuel
                (Nat.max fuel (enough_fuel c l)) c l r E
                (Nat.le_max_l _ _)) as E1.
  destruct (@chordpro_line_ends (Nat.max fuel (enough_fuel c l)) c l
              (Nat.le_max_r _ _)) as (text & E2 & Hn).
  rewrite E1 in E2. injection E2 as ->. exists text. split; [reflexivity|].
  intros [Hc|Hl] ->; destruct (Hn eq_refl) as [H1 H2]; cbn [fst snd] in *;
    congruence.
Qed.

Lemma render_pairs_result (fuel : nat) (pairs : list pair_line) :
  Forall renders pairs ->
  forall r,
    render_pairs fuel pairs = Some r ->
    exists texts, r = Ok (map Some texts).
Proof.
  induction 1 as [|[c l] pairs Hp _ IH]; intros r E; cbn [render_pairs] in E.
  - injection E as <-. now exists [].
  - destruct (chordpro_line fuel c l) as [rc|] eqn:Ec; [|discriminate].
    destruct (chordpro_line_result _ _ _ Ec) as (text & -> & Ht).
    destruct text as [t|]; [|now elim (Ht Hp)].
    destruct (render_pairs fuel pairs) as [rp|]; [|discriminate].
    destruct (IH _ eq_refl) as [texts ->]. injection E as <-.
    now exists (t :: texts).
Qed.

Lemma render_pairs_ends (fuel : nat) (pairs : list pair_line) :
  enough_fuel_pairs pairs <= fuel ->
  exists r, render_pairs fuel pairs = Some r.
Proof.
  induction pairs as [|[c l] pairs IH]; intros H; cbn [render_pairs].
  - now eexists.
  - cbn [enough_fuel_pairs] in H.
    destruct (@chordpro_line_ends fuel c l) as (text & -> & _); [lia|].
    destruct IH as [[texts|e] ->]; [lia| |]; now eexists.
Qed.

Lemma render_sections_result (fuel : nat) (d : list (str * list pair_line)) :
  Forall (fun p => Forall renders (snd p)) d ->
  forall r,
    render_sections fuel d = Some r ->
    exists rendered, r = Ok rendered /\ map fst rendered = map fst d.
Proof.
  induction 1 as [|[name pairs] d Hp _ IH]; intros r E;
    cbn [render_sections] in E.
  - injection E as <-. now exists [].
  - cbn [snd] in Hp. unfold render_section in E.
    destruct (render_pairs fuel pairs) as [rp|] eqn:Ep; [|discriminate].
    destruct (@render_pairs_result fuel pairs Hp _ Ep) as [texts ->].
    destruct (join_with_texts [LF] texts) as [text Et]. rewrite Et in E.
    destruct (render_sections fuel d) as [rd|]; [|discriminate].
    destruct (IH _ eq_refl) as (rendered & -> & Hk). injection E as <-.
    exists ((name, text) :: rendered). cbn [map fst]. now rewrite Hk.
Qed.

Lemma render_sections_ends (fuel : nat) (d : list (str * list pair_line)) :
  enough_fuel_sections d <= fuel ->
  exists r, render_sections fuel d = Some r.
Proof.
  induction d as [|[name pairs] d IH]; intros H; cbn [render_sections].
  - now eexists.
  - cbn [enough_fuel_sections] in H. unfold render_section.
    destruct (@render_pairs_ends fuel pairs) as [[texts|e] ->]; [lia| |].
    + destruct (join_with [LF] texts); [|now eexists].
      destruct IH as [[rendered|e] ->]; [lia| |]; now eexists.
    + now eexists.
Qed.

Lemma finish_result (fuel : nat) (s : song) r :
  Forall (fun p => Forall renders (snd p)) (sections s) ->
  finish fuel s = Some r ->
  exists doc,
    r = Ok doc
    /\ map fst (Doc.sections doc) = map fst (sections s)
    /\ Doc.type doc
       = match sections s with [] => txt "pdf-failed" | _ :: _ => type s end
    /\ Doc.title doc = title s /\ Doc.key doc = key s
    /\ Doc.tempo doc = tempo s /\ Doc.author doc = author s
    /\ Doc.time doc = time s /\ Doc.ccli doc = ccli s
    /\ Doc.legal doc = legal s.
Proof.
  intros H E. unfold finish in E.
  destruct (render_sections fuel (sections s)) as [rs|] eqn:Er;
    [|discriminate].
  destruct (@render_sections_result fuel _ H _ Er) as (rendered & -> & Hk).
  injection E as <-. eexists. split; [reflexivity|].
  cbn. repeat split; auto.
  destruct rendered, (sections s); try reflexivity; discriminate.
Qed.

(** X12.  When the scan of the sheet raises nothing, [parse_pdf] returns a
    document as soon as the loop of [chordpro_line] is given the turns that
    the longest pair of lines needs.  The document has the sections of the
    scan, in their order and under distinct names, the metadata and the
    legal text of the scan, and the type ['pdf-failed'] when there is no
    section, ['pdf'] when there is one. *)
Theorem parse_pdf_returns (fuel : nat) (sheet : str) (s : song) :
  parse_lines (non_blank (split_lines sheet)) = Ok s ->
  enough_fuel_sections (sections s) <= fuel ->
  exists doc,
    parse_pdf fuel sheet = Some (Ok doc)
    /\ map fst (Doc.sections doc) = map fst (sections s)
    /\ NoDup (map fst (Doc.sections doc))
    /\ Doc.type doc
       = match sections s with
         | [] => txt "pdf-failed"
         | _ :: _ => txt "pdf"
         end
    /\ Doc.title doc = title s /\ Doc.key doc = key s
    /\ Doc.tempo doc = tempo s /\ Doc.author doc = author s
    /\ Doc.time doc = time s /\ Doc.ccli doc = ccli s
    /\ Doc.legal doc = legal s.
Proof.
  intros E Hfuel. unfold parse_pdf. rewrite E.
  destruct (parse_lines_ok _ E) as (Hn & Hr & Ht).
  destruct (render_sections_ends _ Hfuel) as [rs Hrs].
  assert (Hf : exists r, finish fuel s = Some r).
  { unfold finish. rewrite Hrs. destruct rs; now eexists. }
  destruct Hf as [r Hf].
  destruct (@finish_result fuel s r Hr Hf)
    as (doc & -> & Hk & Hty & Hmeta).
  exists doc. rewrite Hk, Hty, Ht. repeat split; auto; apply Hmeta.
Qed.

Lemma parse_pdf_returns_witness :
  let sheet := txt "Amazing Grace key - G" ++ [LF] ++ txt "Verse 1" ++ [LF]
               ++ txt "C       G" ++ [LF] ++ txt "Amazing grace" ++ [LF] in
  let s := Song (Some (txt "Amazing Grace")) (Some (txt "G")) None None None
                None []
                [(txt "Verse 1",
                  [(Some (txt "C       G"), Some (txt "Amazing grace"))])]
                (txt "pdf") in
  parse_lines (non_blank (split_lines sheet)) = Ok s
  /\ enough_fuel_sections (sections s) <= 40
  /\ exists doc,
       parse_pdf 40 sheet = Some (Ok doc)
       /\ map fst (Doc.sections doc) = map fst (sections s)
       /\ NoDup (map fst (Doc.sections doc))
       /\ Doc.type doc
          = match sections s with
            | [] => txt "pdf-failed"
            | _ :: _ => txt "pdf"
            end
       /\ Doc.title doc = title s /\ Doc.key doc = key s
       /\ Doc.tempo doc = tempo s /\ Doc.author doc = author s
       /\ Doc.time doc = time s /\ Doc.ccli doc = ccli s
       /\ Doc.legal doc = legal s.
Proof.
  intros sheet s.
  assert (E : parse_lines (non_blank (split_lines sheet)) = Ok s)
    by (vm_compute; reflexivity).
  assert (F : enough_fuel_sections (sections s) <= 40)
    by (vm_compute; lia).
  split; [exact E|]. split; [exact F|].
  exact (@parse_pdf_returns 40 sheet s E F).
Defined.

Example parse_pdf_amazing_grace :
  parse_pdf 40 (txt "Amazing Grace key - G" ++ [LF] ++ txt "Verse 1" ++ [LF]
                ++ txt "C       G" ++ [LF] ++ txt "Amazing grace" ++ [LF])
  = Some (Ok (Doc.Make (Some (txt "Amazing Grace")) (Some (txt "G")) None
                       None None None []
                       [(txt "Verse 1", txt "[C]Amazing [G]grace")]
                       (txt "pdf"))).
Proof. vm_compute. reflexivity. Qed.

(** X13.  Whatever the number of turns its loops are given, the only
    exception that leaves [parse_pdf] is the [TypeError] of the scan: the
    rendering of the sections raises nothing. *)
Theorem parse_pdf_raises_type_error_only (fuel : nat) (sheet : str) (e : exn) :
  parse_pdf fuel sheet = Some (Raise e) ->
  e = TypeError
  /\ parse_lines (non_blank (split_lines sheet)) = Raise TypeError.
Proof.
  unfold parse_pdf.
  destruct (parse_lines (non_blank (split_lines sheet))) as [s|e1] eqn:E.
  - intros Hf. destruct (parse_lines_ok _ E) as (_ & Hr & _).
    destruct (@finish_result fuel s _ Hr Hf) as (doc & Hd & _).
    discriminate.
  - intros Hf. injection Hf as ->. unfold parse_lines in E.
    destruct (scan_lines start (non_blank (split_lines sheet)))
      as [st|e2] eqn:Es; [discriminate|].
    cbn [bind] in E. injection E as ->.
    destruct (scan_lines_raises _ _ Es) as [-> _]. now split.
Qed.

Lemma parse_pdf_raises_type_error_only_witness :
  let sheet := txt "Verse 1" ++ [LF] ++ txt "  6" ++ [LF] ++ txt "A" in
  parse_pdf 0 sheet = Some (Raise TypeError)
  /\ TypeError = TypeError
  /\ parse_lines (non_blank (split_lines sheet)) = Raise TypeError.
Proof.
  intros sheet.
  assert (E : parse_pdf 0 sheet = Some (Raise TypeError))
    by (vm_compute; reflexivity).
  split; [exact E|]. exact (@parse_pdf_raises_type_error_only 0 sheet _ E).
Defined.

(** ** A sheet without structure *)

Lemma step_without_structure (st : scan) (line : str) :
  Regex.re_match RE.SECTION line = None ->
  is_chord_line (tokenise_chords line) = Ok false ->
  section_name st = None ->
  exists st',
    step st line = Ok st'
    /\ section_name st' = None
    /\ sections (the_song st') = sections (the_song st).
Proof.
  intros Hs Hc Hn. unfold step.
  destruct (truthy (ccli (the_song st))); [eexists; split; [reflexivity|]; now cbn|].
  destruct (Regex.re_search RE.CCLI line);
    [eexists; split; [reflexivity|]; now cbn|].
  rewrite Hs, Hc. cbn [bind]. rewrite Hn. cbn [truthy].
  eexists; split; [reflexivity|]. cbn [section_name the_song].
  split; [reflexivity|]. now destruct (preamble_keeps (the_song st) line).
Qed.

Lemma scan_without_structure (lines : list str) :
  Forall (fun line => Regex.re_match RE.SECTION line = None
                      /\ is_chord_line (tokenise_chords line) = Ok false)
         lines ->
  forall st,
    section_name st = None ->
    exists st',
      scan_lines st lines = Ok st'
      /\ section_name st' = None
      /\ sections (the_song st') = sections (the_song st).
Proof.
  induction 1 as [|line lines [Hs Hc] _ IH]; intros st Hn;
    cbn [scan_lines].
  - now exists st.
  - destruct (@step_without_structure st line Hs Hc Hn)
      as (st1 & -> & Hn1 & Hs1).
    cbn [bind]. destruct (IH st1 Hn1) as (st' & -> & Hn' & Hs').
    exists st'. rewrite <- Hs1. auto.
Qed.

(** X14.  A sheet in which no line begins with a section keyword and no
    line is a chord line gives a document without sections, of the type
    ['pdf-failed'], whatever else its lines hold (metadata, a license line,
    prose) and whatever the number of turns allowed. *)
Theorem sheet_without_structure_fails (fuel : nat) (sheet : str) :
  Forall (fun line => Regex.re_match RE.SECTION line = None
                      /\ is_chord_line (tokenise_chords line) = Ok false)
         (non_blank (split_lines sheet)) ->
  exists doc,
    parse_pdf fuel sheet = Some (Ok doc)
    /\ Doc.sections doc = []
    /\ Doc.type doc = txt "pdf-failed".
Proof.
  intros H. unfold parse_pdf, parse_lines.
  destruct (scan_without_structure H start eq_refl) as (st & -> & Hn & Hs).
  cbn [bind]. unfold close_section. rewrite Hn. cbn [fst].
  unfold finish. rewrite Hs. cbn [start the_song empty_song sections].
  cbn [render_sections]. eexists. split; [reflexivity|]. now cbn.
Qed.

Lemma sheet_without_structure_fails_witness :
  Forall (fun line => Regex.re_match RE.SECTION line = None
                      /\ is_chord_line (tokenise_chords line) = Ok false)
         (non_blank (split_lines (txt "Amazing Grace key - G" ++ [LF]
                                  ++ txt "some words")))
  /\ exists doc,
       parse_pdf 0 (txt "Amazing Grace key - G" ++ [LF] ++ txt "some words")
       = Some (Ok doc)
       /\ Doc.sections doc = []
       /\ Doc.type doc = txt "pdf-failed".
Proof.
  assert (H : Forall (fun line => Regex.re_match RE.SECTION line = None
                        /\ is_chord_line (tokenise_chords line) = Ok false)
                (non_blank (split_lines (txt "Amazing Grace key - G" ++ [LF]
                                         ++ txt "some words")))).
  { assert (E : non_blank (split_lines (txt "Amazing Grace key - G" ++ [LF]
                                        ++ txt "some words"))
                = [txt "Amazing Grace key - G"; txt "some words"])
      by (vm_compute; reflexivity).
    rewrite E.
    repeat (apply Forall_cons || apply Forall_nil);
      split; vm_compute; reflexivity. }
  split; [exact H|].
  exact (@sheet_without_structure_fails 0 _ H).
Defined.

(** ** What the merge keeps *)

Lemma chords_of_app (a b : list str) :
  chords_of (a ++ b) = chords_of a ++ chords_of b.
Proof. apply filter_app. Qed.

Lemma words_of_app (a b : list str) :
  words_of (a ++ b) = words_of a ++ words_of b.
Proof. unfold words_of. now rewrite filter_app, concat_app, filter_app. Qed.

Lemma wrap_long (t : str) : is_long (wrap t) = true.
Proof.
  unfold wrap, is_long.
  destruct (startswith t (txt "(") && endswith t (txt ")")).
  - reflexivity.
  - cbn [txt app length]. rewrite length_app. cbn [length].
    apply Nat.ltb_lt. lia.
Qed.

Lemma long_piece (output : list str) (p : str) :
  is_long p = true ->
  chords_of (output ++ [p]) = chords_of output ++ [p]
  /\ words_of (output ++ [p]) = words_of output.
Proof.
  intros H. rewrite chords_of_app, words_of_app.
  unfold chords_of, words_of. cbn [filter]. rewrite H. cbn [negb filter concat].
  now rewrite app_nil_r.
Qed.

Lemma short_piece (output : list str) (c : char) :
  chords_of (output ++ [[c]]) = chords_of output
  /\ words_of (output ++ [[c]]) = words_of output ++ filter not_space [c].
Proof.
  rewrite chords_of_app, words_of_app.
  unfold chords_of, words_of. cbn [filter is_long length Nat.ltb Nat.leb negb concat app].
  now rewrite !app_nil_r.
Qed.

Lemma emit_chord_pieces (output : list str) (t : str) c last_char output' :
  emit_chord output t c last_char = Ok output' ->
  chords_of output' = chords_of output ++ [wrap t]
  /\ words_of output' = words_of output.
Proof.
  unfold emit_chord.
  destruct (startswith t (txt "(") && endswith t (txt ")")) eqn:E.
  - assert (Hw : wrap t = txt "{comment:" ++ t ++ txt "}")
      by (unfold wrap; now rewrite E).
    rewrite <- Hw. intros H; injection H as <-.
    exact (@long_piece output (wrap t) (wrap_long t)).
  - assert (Hw : wrap t = txt "[" ++ t ++ txt "]")
      by (unfold wrap; now rewrite E).
    rewrite <- Hw.
    destruct (ends_with_chord output) as [b|e]; [|discriminate].
    cbn [bind]. intros H; injection H as <-.
    destruct (short_piece output SPACE) as [S1 S2].
    cbn [filter not_space] in S2.
    change (N.eqb SPACE SPACE) with true in S2. cbn [negb] in S2.
    rewrite app_nil_r in S2.
    destruct (@long_piece (output ++ [[SPACE]]) (wrap t) (wrap_long t))
      as [A B].
    destruct b; [|destruct (is_char c SPACE && negb (is_char last_char SPACE))];
      try exact (@long_piece output (wrap t) (wrap_long t));
      (split;
       [ eapply eq_trans; [apply A|]; f_equal; exact S1
       | eapply eq_trans; [apply B|exact S2] ]).
Qed.

Lemma skip_spaces_rest (budget : nat) :
  forall it i c last_char,
    (c = None -> chars it = []) ->
    let r := skip_spaces budget it i c last_char in
    filter not_space (lyric_rest (fst (fst (fst r))) (snd (fst r)))
    = filter not_space (lyric_rest it c).
Proof.
  induction budget as [|b IH]; intros it i c last_char Hn;
    cbn [skip_spaces]; [reflexivity|].
  destruct c as [x|]; cbn [is_char]; [|reflexivity].
  destruct (N.eqb_spec x SPACE) as [->|_]; [|reflexivity].
  unfold next_char. destruct it as [n cs]. cbn [count chars].
  destruct cs as [|y cs].
  - specialize (IH (LineIter (n + 1) []) n None (Some SPACE) (fun _ => eq_refl)).
    cbn zeta in IH. rewrite IH. reflexivity.
  - specialize (IH (LineIter (n + 1) cs) n (Some y) (Some SPACE)).
    cbn zeta in IH. rewrite IH; [reflexivity|discriminate].
Qed.

(** When the loop ends, [output] holds what it held, then every token that
    was waiting, wrapped, in order, and between them the lyric characters
    that were left, but for spaces. *)
Lemma merge_loop_keeps (fuel : nat) :
  forall g it output index chord i c last_char bound out,
    merge_loop fuel g it output index chord i c last_char = Some (Ok out) ->
    chord_ahead bound i index chord g ->
    lyric_at it i c ->
    chords_of out = chords_of output ++ map wrap (waiting chord g)
    /\ words_of out
       = words_of output ++ filter not_space (lyric_rest it c).
Proof.
  induction fuel as [|fuel IH];
    intros g it output index chord i c last_char bound out E Hch Hly.
  - destruct chord as [t|]; cbn [chord_ahead] in Hch.
    + destruct Hch as (Ht & _). destruct t; [contradiction|]. discriminate.
    + destruct Hch as [-> ->]. destruct c as [x|]; [discriminate|].
      cbn in E. injection E as <-.
      destruct Hly as (_ & _ & Hn). unfold lyric_rest. rewrite (Hn eq_refl).
      cbn. now rewrite !app_nil_r.
  - destruct chord as [t|]; cbn [chord_ahead] in Hch.
    + destruct Hch as (Ht & Hi & Hb & Ha).
      destruct t as [|x t]; [contradiction|].
      cbn [merge_loop truthy nonempty orb negb] in E.
      assert (0 < len (x :: t))%Z by (unfold len; cbn [length]; lia).
      assert (Hlt : len (x :: t) = (Z.of_nat (length (x :: t))))
        by reflexivity.
      destruct (Z.eqb_spec i index) as [->|Hne].
      * destruct (emit_chord output (x :: t) c last_char) as [output'|e]
          eqn:Ee; [|discriminate].
        destruct (emit_chord_pieces _ _ _ _ Ee) as [P1 P2].
        pose proof (skip_spaces_keeps (length (x :: t)) last_char Hly)
          as Hskip.
        pose proof (skip_spaces_rest (length (x :: t)) it index last_char
                      (proj2 (proj2 Hly))) as Hrest.
        destruct (skip_spaces (length (x :: t)) it index c last_char)
          as [[[it' i'] c'] last'].
        cbn [fst snd] in Hskip, Hrest. cbn zeta in Hskip, Hrest.
        destruct Hskip as (Hly' & Hi' & _).
        destruct g as [|[o t'] g'|e]; cbn [ascending fst snd] in Ha;
          [| |contradiction]; cbn [next_chord] in E.
        -- destruct (IH _ _ _ _ _ _ _ _ bound _ E) as [Q1 Q2];
             [now split|exact Hly'|].
           rewrite Q1, Q2, P1, P2, Hrest. unfold waiting.
           cbn [yielded map app]. rewrite <- app_assoc. now split.
        -- destruct Ha as (Ho & Ht' & Hb' & Ha').
           destruct (IH _ _ _ _ _ _ _ _ bound _ E) as [Q1 Q2];
             [cbn [chord_ahead]; repeat split; auto; lia|exact Hly'|].
           rewrite Q1, Q2, P1, P2, Hrest. unfold waiting.
           cbn [yielded map app snd]. rewrite <- app_assoc. now split.
      * destruct Hly as (H0 & Hcount & Hnone).
        destruct it as [n cs]. cbn [count chars] in *.
        unfold next_char in E. cbn [count chars] in E.
        destruct c as [z|].
        -- destruct (short_piece output z) as [S1 S2].
           destruct cs as [|y cs];
             (destruct (IH _ _ _ _ _ _ _ _ bound _ E) as [Q1 Q2];
              [ cbn [chord_ahead]; repeat split; auto; lia
              | unfold lyric_at; cbn [count chars]; repeat split;
                try lia; try discriminate; auto
              | rewrite Q1, Q2, S1, S2; unfold lyric_rest;
                cbn [chars app filter]; rewrite <- ?app_assoc, ?app_nil_r;
                destruct (not_space z); now split ]).
        -- rewrite (Hnone eq_refl) in E.
           destruct (short_piece output SPACE) as [S1 S2].
           destruct (IH _ _ _ _ _ _ _ _ bound _ E) as [Q1 Q2];
             [ cbn [chord_ahead]; repeat split; auto; lia
             | unfold lyric_at; cbn [count chars]; repeat split;
               try lia; auto
             | ].
           rewrite Q1, Q2, S1, S2. unfold lyric_rest.
           rewrite (Hnone eq_refl). cbn [chars app filter not_space].
           change (N.eqb SPACE SPACE) with true. cbn [negb].
           rewrite !app_nil_r. now split.
    + destruct Hch as [-> ->].
      destruct c as [z|].
      2:{ cbn in E. injection E as <-.
          destruct Hly as (_ & _ & Hn). unfold lyric_rest.
          rewrite (Hn eq_refl). cbn. now rewrite !app_nil_r. }
      cbn [merge_loop truthy orb negb] in E.
      destruct Hly as (H0 & Hcount & Hnone).
      destruct (Z.eqb_spec i (-1)) as [E1|_]; [lia|].
      destruct it as [n cs]. cbn [count chars] in *.
      unfold next_char in E. cbn [count chars] in E.
      destruct (short_piece output z) as [S1 S2].
      destruct cs as [|y cs];
        (destruct (IH _ _ _ _ _ _ _ _ bound _ E) as [Q1 Q2];
         [ now split
         | unfold lyric_at; cbn [count chars]; repeat split;
           try lia; try discriminate; auto
         | rewrite Q1, Q2, S1, S2; unfold lyric_rest;
           cbn [chars app filter]; rewrite <- ?app_assoc, ?app_nil_r;
           destruct (not_space z); now split ]).
Qed.

(** X15.  The merge loses no chord and no word.  When the loop of
    [chordpro_line] ends on a chord line and a lyric line that are not
    empty, the pieces of its output that are longer than one character are
    the tokens of the chord line, all of them and in their order, a
    directive as [{comment:...}] and any other token in square brackets; and
    the pieces of one character, but for spaces, are the characters of the
    lyric line, but for spaces, in their order.  The text that is returned
    is this output, joined, squeezed and stripped. *)
Theorem merge_keeps_chords_and_words (fuel : nat) (chord_line lyric_line : str)
    (out : list str) :
  chord_line <> [] ->
  lyric_line <> [] ->
  chordpro_output fuel chord_line lyric_line = Some (Ok out) ->
  chordpro_line fuel (Some chord_line) (Some lyric_line)
  = Some (Ok (Some (strip (squeeze_spaces (join out) 0))))
  /\ chords_of out = map wrap (tokenise_chords chord_line)
  /\ words_of out = filter not_space lyric_line.
Proof.
  intros Hc Hl E.
  split.
  { unfold chordpro_line. unfold chordpro_output in E.
    destruct chord_line as [|c cl]; [contradiction|].
    destruct lyric_line as [|l ll]; [contradiction|].
    destruct (next_chord (chord_indicies (c :: cl)))
      as [[[index chord] g]|e]; [|discriminate].
    destruct (next_char (LineIter 0 (l :: ll))) as [[i ch0] it].
    now rewrite E. }
  pose proof (chord_indicies_loop_ascending
                (tokenise_chords_segments chord_line) []) as Ha.
  change (ascending 0 (len chord_line) (chord_indicies chord_line)) in Ha.
  destruct (chord_indicies_layout chord_line) as (_ & Hm & _).
  unfold chordpro_output in E. rewrite <- Hm.
  assert (Hly : lyric_at (snd (next_char (LineIter 0 lyric_line))) 0
                         (snd (fst (next_char (LineIter 0 lyric_line))))
                /\ lyric_rest (snd (next_char (LineIter 0 lyric_line)))
                              (snd (fst (next_char (LineIter 0 lyric_line))))
                   = lyric_line
                /\ fst (fst (next_char (LineIter 0 lyric_line))) = 0%Z).
  { unfold next_char, lyric_at, lyric_rest. cbn [count chars].
    destruct lyric_line; cbn [fst snd count chars app]; repeat split;
      try lia; auto; discriminate. }
  destruct (next_char (LineIter 0 lyric_line)) as [[i ch0] it].
  cbn [fst snd] in Hly. destruct Hly as (Hly & Hrest & ->).
  destruct (chord_indicies chord_line) as [|[o t] g|e];
    cbn [ascending fst snd] in Ha; [| |contradiction];
    cbn [next_chord] in E.
  - destruct (@merge_loop_keeps fuel _ _ _ _ _ _ _ _ (len chord_line) _ E)
      as [Q1 Q2]; [now split|exact Hly|].
    rewrite Q1, Q2, Hrest. now split.
  - destruct Ha as (Ho & Ht & Hb & Ha).
    destruct (@merge_loop_keeps fuel _ _ _ _ _ _ _ _ (len chord_line) _ E)
      as [Q1 Q2]; [cbn [chord_ahead]; now repeat split|exact Hly|].
    rewrite Q1, Q2, Hrest. now split.
Qed.

Lemma merge_keeps_chords_and_words_witness :
  let out := [txt "[Am]"; txt "l"; txt "a"; txt " "; txt "[|]"; txt "l";
              txt "{comment:(To Chorus)}"; txt "a"]
             ++ repeat (txt " ") 11 ++ [txt "[G]"] in
  txt "Am | (To Chorus) G" <> []
  /\ txt "la  la" <> []
  /\ chordpro_output 40 (txt "Am | (To Chorus) G") (txt "la  la")
     = Some (Ok out)
  /\ chordpro_line 40 (Some (txt "Am | (To Chorus) G")) (Some (txt "la  la"))
     = Some (Ok (Some (strip (squeeze_spaces (join out) 0))))
  /\ chords_of out = map wrap (tokenise_chords (txt "Am | (To Chorus) G"))
  /\ words_of out = filter not_space (txt "la  la").
Proof.
  intros out.
  assert (E : chordpro_output 40 (txt "Am | (To Chorus) G") (txt "la  la")
              = Some (Ok out)) by (vm_compute; reflexivity).
  split; [discriminate|]. split; [discriminate|]. split; [exact E|].
  apply (@merge_keeps_chords_and_words 40 (txt "Am | (To Chorus) G")
           (txt "la  la") out); [discriminate|discriminate|exact E].
Defined.

(** ** The shape of a merged line *)

Lemma lstrip_split (s : str) :
  exists pre, s = pre ++ lstrip s.
Proof.
  induction s as [|c s [pre IH]]; [now exists []|]. cbn [lstrip].
  destruct (isspace c); [|now exists []].
  exists (c :: pre). cbn [app]. now rewrite <- IH.
Qed.

Lemma lstrip_head (s : str) (c : char) (r : str) :
  lstrip s = c :: r -> isspace c = false.
Proof.
  induction s as [|x s IH]; cbn [lstrip]; [discriminate|].
  destruct (isspace x) eqn:E; [exact IH|].
  intros H; injection H as <- _. exact E.
Qed.

Lemma lstrip_keeps_last (a : str) (c : char) :
  isspace c = false -> lstrip (a ++ [c]) = lstrip a ++ [c].
Proof.
  intros Hc. induction a as [|x a IH]; cbn [app lstrip].
  - now rewrite Hc.
  - destruct (isspace x); [exact IH|reflexivity].
Qed.

Lemma rstrip_split (s : str) :
  exists post, s = rstrip s ++ post.
Proof.
  unfold rstrip. destruct (lstrip_split (rev s)) as [pre E].
  exists (rev pre). rewrite <- rev_app_distr, <- E. now rewrite rev_involutive.
Qed.

Lemma rstrip_last (s r : str) (c : char) :
  rstrip s = r ++ [c] -> isspace c = false.
Proof.
  unfold rstrip. intros H. apply (f_equal (@rev _)) in H.
  rewrite rev_involutive, rev_app_distr in H. cbn [rev app] in H.
  exact (@lstrip_head _ _ _ H).
Qed.

Lemma rstrip_keeps_head (c : char) (s : str) :
  isspace c = false -> exists r, rstrip (c :: s) = c :: r.
Proof.
  intros Hc. unfold rstrip. cbn [rev].
  rewrite (@lstrip_keeps_last (rev s) c Hc), rev_app_distr. cbn [rev app].
  now eexists.
Qed.

Lemma startswith_longer (s more p : str) :
  startswith s p = true -> startswith (s ++ more) p = true.
Proof.
  revert s. induction p as [|y p IH]; intros s H; [reflexivity|].
  destruct s as [|x s]; [discriminate|]. cbn [app startswith] in *.
  apply andb_true_iff in H as [-> H]. cbn [andb]. exact (IH _ H).
Qed.

(** What [strip] returns is a piece of the text, and neither begins nor
    ends with white space. *)
Lemma strip_shape (s : str) :
  (exists pre post, s = pre ++ strip s ++ post)
  /\ (forall c r, strip s = c :: r -> isspace c = false)
  /\ (forall c r, strip s = r ++ [c] -> isspace c = false).
Proof.
  unfold strip. split; [|split].
  - destruct (lstrip_split s) as [pre E].
    destruct (rstrip_split (lstrip s)) as [post E'].
    exists pre, post. now rewrite <- E', <- E.
  - intros c r H. destruct (lstrip s) as [|x l] eqn:El.
    + discriminate.
    + pose proof (@lstrip_head _ _ _ El) as Hx.
      destruct (@rstrip_keeps_head x l Hx) as [r' E]. rewrite E in H.
      injection H as <- _. exact Hx.
  - intros c r H. exact (@rstrip_last _ _ _ H).
Qed.

(** X16.  The text that [chordpro_line] makes of a chord line and a lyric
    line that are not empty neither begins nor ends with white space, and
    has no five spaces in a row, wherever one looks. *)
Theorem merged_line_shape (fuel : nat) (chord_line lyric_line text : str) :
  chord_line <> [] ->
  lyric_line <> [] ->
  chordpro_line fuel (Some chord_line) (Some lyric_line)
  = Some (Ok (Some text)) ->
  (forall c r, text = c :: r -> isspace c = false)
  /\ (forall c r, text = r ++ [c] -> isspace c = false)
  /\ (forall before after,
        text = before ++ after ->
        startswith after (repeat SPACE 5) = false).
Proof.
  intros Hc Hl E. unfold chordpro_line in E.
  destruct chord_line as [|c cl]; [contradiction|].
  destruct lyric_line as [|l ll]; [contradiction|].
  destruct (next_chord (chord_indicies (c :: cl)))
    as [[[index chord] g]|e]; [|discriminate].
  destruct (next_char (LineIter 0 (l :: ll))) as [[i ch0] it].
  destruct (merge_loop fuel g it [] index chord i ch0 None) as [[out|e]|];
    try discriminate.
  injection E as <-.
  destruct (strip_shape (squeeze_spaces (join out) 0))
    as ((pre & post & Hs) & Hh & Ht).
  split; [exact Hh|]. split; [exact Ht|].
  intros before after E.
  destruct (startswith after (repeat SPACE 5)) eqn:H5; [|reflexivity].
  rewrite E, <- app_assoc, app_assoc in Hs.
  pose proof (@startswith_longer after post _ H5) as H6.
  rewrite (@squeeze_spaces_no_five (join out) (pre ++ before)
             (after ++ post) Hs) in H6.
  discriminate.
Qed.

Lemma merged_line_shape_witness :
  txt "C       G       " <> []
  /\ txt "Amazing grace" <> []
  /\ chordpro_line 15 (Some (txt "C       G       "))
                   (Some (txt "Amazing grace"))
     = Some (Ok (Some (txt "[C]Amazing [G]grace")))
  /\ (forall c r, txt "[C]Amazing [G]grace" = c :: r -> isspace c = false)
  /\ (forall c r, txt "[C]Amazing [G]grace" = r ++ [c] -> isspace c = false)
  /\ (forall before after,
        txt "[C]Amazing [G]grace" = before ++ after ->
        startswith after (repeat SPACE 5) = false).
Proof.
  assert (E : chordpro_line 15 (Some (txt "C       G       "))
                            (Some (txt "Amazing grace"))
              = Some (Ok (Some (txt "[C]Amazing [G]grace"))))
    by (vm_compute; reflexivity).
  split; [discriminate|]. split; [discriminate|]. split; [exact E|].
  apply (@merged_line_shape 15 (txt "C       G       ")
           (txt "Amazing grace") (txt "[C]Amazing [G]grace"));
    [discriminate|discriminate|exact E].
Defined.

(** ** A sheet without a license line *)

Lemma close_section_license (st : scan) :
  ccli (fst (close_section st)) = ccli (the_song st)
  /\ legal (fst (close_section st)) = legal (the_song st).
Proof.
  unfold close_section.
  destruct (section_name st) as [[|c name]|]; cbn [fst]; auto.
Qed.

Lemma step_no_license (st st' : scan) (line : str) :
  Regex.re_search RE.CCLI line = None ->
  ccli (the_song st) = None ->
  step st line = Ok st' ->
  ccli (the_song st') = None /\ legal (the_song st') = legal (the_song st).
Proof.
  intros Hl Hc. unfold step. rewrite Hc, Hl. cbn [truthy].
  destruct (Regex.re_match RE.SECTION line).
  { intros E; injection E as <-. cbn [the_song].
    destruct (close_section_license st) as [-> ->]. auto. }
  destruct (is_chord_line (tokenise_chords line)) as [chordy|e];
    [|discriminate]. cbn [bind].
  destruct chordy.
  { destruct (superscript_line st) as [sup|].
    - destruct (fix_superscript_line sup (rstrip line)); [|discriminate].
      cbn [bind]. intros E; injection E as <-. cbn. auto.
    - intros E; injection E as <-. cbn. auto. }
  destruct (truthy (section_name st)).
  { destruct (isdigit (strip line)); intros E; injection E as <-; cbn;
      auto. }
  intros E; injection E as <-. cbn [the_song].
  destruct (preamble_keeps (the_song st) line) as (_ & _ & -> & ->). auto.
Qed.

Lemma scan_no_license (lines : list str) :
  Forall (fun line => Regex.re_search RE.CCLI line = None) lines ->
  forall st st',
    ccli (the_song st) = None ->
    scan_lines st lines = Ok st' ->
    ccli (the_song st') = None /\ legal (the_song st') = legal (the_song st).
Proof.
  induction 1 as [|line lines Hl _ IH]; intros st st' Hc E;
    cbn [scan_lines] in E.
  - injection E as <-. auto.
  - destruct (step st line) as [st1|e] eqn:E1; [|discriminate].
    cbn [bind] in E.
    destruct (@step_no_license st st1 line Hl Hc E1) as [Hc1 Hl1].
    destruct (IH st1 st' Hc1 E) as [Hc' Hl']. rewrite Hl', Hl1. auto.
Qed.

(** X17.  When no line of the sheet holds the license pattern, the song has
    no license number and its legal text is empty: nothing but a license
    line, and the lines after it, goes to the legal text. *)
Theorem no_license_no_legal (lines : list str) (s : song) :
  Forall (fun line => Regex.re_search RE.CCLI line = None) lines ->
  parse_lines lines = Ok s ->
  ccli s = None /\ legal s = [].
Proof.
  intros H E. unfold parse_lines in E.
  destruct (scan_lines start lines) as [st|e] eqn:Es; [|discriminate].
  cbn [bind] in E. injection E as <-.
  destruct (@scan_no_license lines H start st eq_refl Es) as [Hc Hl].
  destruct (close_section_license st) as [-> ->]. now rewrite Hc, Hl.
Qed.

Lemma no_license_no_legal_witness :
  let lines := [txt "Verse 1"; txt "C G"; txt "Amazing grace"] in
  let s := Song None None None None None None []
                [(txt "Verse 1", [(Some (txt "C G"), Some (txt "Amazing grace"))])]
                (txt "pdf") in
  Forall (fun line => Regex.re_search RE.CCLI line = None) lines
  /\ parse_lines lines = Ok s
  /\ ccli s = None /\ legal s = [].
Proof.
  intros lines s.
  assert (H : Forall (fun line => Regex.re_search RE.CCLI line = None) lines).
  { unfold lines.
    repeat (apply Forall_cons || apply Forall_nil); vm_compute; reflexivity. }
  assert (E : parse_lines lines = Ok s) by (vm_compute; reflexivity).
  split; [exact H|]. split; [exact E|].
  exact (@no_license_no_legal lines s H E).
Defined.

(** ** The time marker of the preamble *)

Module TimeMarker.
Import Regex.

Lemma space_cases (c : char) :
  isspace c = true ->
  In c [9; 10; 11; 12; 13; 28; 29; 30; 31; 32; 133; 160; 5760;
        8192; 8193; 8194; 8195; 8196; 8197; 8198; 8199; 8200; 8201; 8202;
        8232; 8233; 8239; 8287; 12288]%N.
Proof.
  unfold isspace, in_ranges. cbn [existsb fst snd]. intros H.
  repeat (apply orb_true_iff in H as [H|H]);
    try discriminate;
    apply andb_true_iff in H as [H1 H2]; apply N.leb_le in H1, H2;
    cbn [In]; lia.
Qed.

(** No decimal digit is white space. *)
Lemma decimal_not_space (c : char) : isdecimal c = true -> isspace c = false.
Proof.
  intros Hd. destruct (isspace c) eqn:Hs; [|reflexivity].
  apply space_cases in Hs. cbn [In] in Hs.
  repeat (destruct Hs as [<-|Hs]; [vm_compute in Hd; discriminate Hd|]).
  contradiction.
Qed.

Lemma firstn_exact (a b : str) (n m : nat) :
  m = n + length a -> firstn (m - n) (a ++ b) = a.
Proof.
  intros ->. replace (n + length a - n) with (length a) by lia.
  induction a as [|x a IH]; cbn [length firstn app];
    [now destruct b|now rewrite IH].
Qed.

(** The marker, read at its first character: the word, white space, a dash
    or a colon, white space, and the signature [digits/digits], which is the
    group. *)
Lemma time_marker_run (w ws1 ws2 d1 d2 after : str) (sep : char) (i : nat) :
  map lower w = map lower (txt "time") ->
  sep = ch "-" \/ sep = ch ":" ->
  ws1 <> [] -> forallb isspace ws1 = true ->
  ws2 <> [] -> forallb isspace ws2 = true ->
  d1 <> [] -> forallb isdecimal d1 = true ->
  d2 <> [] -> forallb isdecimal d2 = true ->
  stops isdecimal after ->
  exists c,
    run RE.TIME
        (Cursor i (w ++ ws1 ++ [sep] ++ ws2 ++ d1 ++ [ch "/"] ++ d2 ++ after)
                []) Some
    = Some c
    /\ groups c = [(1, d1 ++ [ch "/"] ++ d2)].
Proof.
  intros Hw Hsep Hne1 Hws1 Hne2 Hws2 Hn1 Hd1 Hn2 Hd2 Hafter.
  destruct (KeyMarker.separator_class Hsep) as [Hd Hds].
  assert (Hsp : stops isspace (d1 ++ [ch "/"] ++ d2 ++ after)).
  { destruct d1 as [|x d1]; [contradiction|]. cbn [app stops].
    cbn [forallb] in Hd1. apply andb_true_iff in Hd1 as [Hx _].
    now apply decimal_not_space. }
  eexists. split.
  - unfold RE.TIME.
    rewrite RegexFacts.run_cat_cons, RegexFacts.run_lit_i by exact Hw.
    rewrite RegexFacts.run_cat_cons.
    apply KeyMarker.run_plus_greedy; [exact Hne1|exact Hws1|exact Hds|].
    rewrite RegexFacts.run_cat_cons. cbn [run rest pos groups app].
    rewrite Hd. rewrite RegexFacts.run_cat_cons.
    apply KeyMarker.run_plus_greedy; [exact Hne2|exact Hws2|exact Hsp|].
    cbn [cat run].
    apply KeyMarker.run_plus_greedy; [exact Hn1|exact Hd1|reflexivity|].
    change (ch "/" :: d2 ++ after) with ([ch "/"] ++ d2 ++ after).
    rewrite (@RegexFacts.run_lit_i "/" [ch "/"]) by reflexivity.
    apply KeyMarker.run_plus_greedy; [exact Hn2|exact Hd2|exact Hafter|].
    reflexivity.
  - cbn [groups pos rest]. f_equal. f_equal.
    replace (d1 ++ [ch "/"] ++ d2 ++ after)
      with ((d1 ++ [ch "/"] ++ d2) ++ after)
      by (now rewrite <- !app_assoc).
    apply firstn_exact. rewrite !length_app. cbn [length]. lia.
Qed.

End TimeMarker.

(** X18.  Take a preamble line made of an author, the word [time] in any
    case, white space, a colon or a dash, white space and a signature
    [digits/digits], where no time marker begins inside the author and the
    line holds neither a key marker nor a tempo marker.  The extraction sets
    the time signature to the signature and the author to the stripped text
    before the marker, and leaves the key, the title and the tempo alone. *)
Theorem time_marker_sets_time_and_author (s : song)
    (author_text w ws1 ws2 d1 d2 after : str) (sep : char) :
  let line := author_text ++ w ++ ws1 ++ [sep] ++ ws2 ++ d1 ++ [ch "/"]
              ++ d2 ++ after in
  map Regex.lower w = txt "time" ->
  sep = ch "-" \/ sep = ch ":" ->
  ws1 <> [] -> forallb isspace ws1 = true ->
  ws2 <> [] -> forallb isspace ws2 = true ->
  d1 <> [] -> forallb isdecimal d1 = true ->
  d2 <> [] -> forallb isdecimal d2 = true ->
  stops isdecimal after ->
  Regex.re_search RE.KEY line = None ->
  Regex.re_search RE.TEMPO line = None ->
  (forall j, j < length author_text ->
     Regex.match_at RE.TIME j (skipn j line) = None) ->
  preamble s line
  = set_author (set_time s (Some (d1 ++ [ch "/"] ++ d2)))
               (Some (strip author_text)).
Proof.
  intros line Hw Hsep Hne1 Hws1 Hne2 Hws2 Hn1 Hd1 Hn2 Hd2 Hafter Hk Ht Hno.
  destruct (@TimeMarker.time_marker_run w ws1 ws2 d1 d2 after sep
              (0 + length author_text))
    as (c & Hc & Hg); auto.
  assert (Hs : Regex.re_search RE.TIME line
               = Some (Regex.Match (0 + length author_text) (Regex.pos c)
                                   (Regex.groups c))).
  { unfold Regex.re_search, line.
    apply RegexFacts.search_from_skip; [exact Hno|].
    unfold Regex.match_at. now rewrite Hc. }
  unfold preamble. rewrite Hk, Hs, Ht. unfold Regex.group.
  cbn [Regex.captured Regex.span_start]. rewrite Hg.
  cbn [Regex.group_of Nat.eqb Nat.add].
  unfold line. now rewrite slice_to_app.
Qed.

Lemma time_marker_sets_time_and_author_witness :
  let line := txt "John Newton  " ++ txt "Time" ++ txt " " ++ [ch "-"]
              ++ txt " " ++ txt "3" ++ [ch "/"] ++ txt "4" ++ txt "" in
  map Regex.lower (txt "Time") = txt "time"
  /\ (ch "-" = ch "-" \/ ch "-" = ch ":")
  /\ txt " " <> []
  /\ forallb isspace (txt " ") = true
  /\ txt "3" <> [] /\ forallb isdecimal (txt "3") = true
  /\ txt "4" <> [] /\ forallb isdecimal (txt "4") = true
  /\ stops isdecimal (txt "")
  /\ Regex.re_search RE.KEY line = None
  /\ Regex.re_search RE.TEMPO line = None
  /\ (forall j, j < length (txt "John Newton  ") ->
        Regex.match_at RE.TIME j (skipn j line) = None)
  /\ preamble empty_song line
     = set_author (set_time empty_song (Some (txt "3" ++ [ch "/"] ++ txt "4")))
                  (Some (strip (txt "John Newton  "))).
Proof.
  intros line.
  assert (Hno : forall j, j < length (txt "John Newton  ") ->
                  Regex.match_at RE.TIME j (skipn j line) = None).
  { intros j Hj. cbn [txt length] in Hj.
    do 13 (destruct j as [|j]; [vm_compute; reflexivity|]). lia. }
  assert (Hk : Regex.re_search RE.KEY line = None)
    by (vm_compute; reflexivity).
  assert (Ht : Regex.re_search RE.TEMPO line = None)
    by (vm_compute; reflexivity).
  assert (Hw : map Regex.lower (txt "Time") = txt "time")
    by (vm_compute; reflexivity).
  assert (Hsep : ch "-" = ch "-" \/ ch "-" = ch ":") by (now left).
  assert (Hne : txt " " <> []) by discriminate.
  assert (Hws : forallb isspace (txt " ") = true)
    by (vm_compute; reflexivity).
  assert (Hn3 : txt "3" <> []) by discriminate.
  assert (Hd3 : forallb isdecimal (txt "3") = true)
    by (vm_compute; reflexivity).
  assert (Hn4 : txt "4" <> []) by discriminate.
  assert (Hd4 : forallb isdecimal (txt "4") = true)
    by (vm_compute; reflexivity).
  assert (Hst : stops isdecimal (txt "")) by exact I.
  repeat (split; [assumption|]).
  exact (@time_marker_sets_time_and_author empty_song (txt "John Newton  ")
           (txt "Time") (txt " ") (txt " ") (txt "3") (txt "4") (txt "")
           (ch "-") Hw Hsep Hne Hws Hne Hws Hn3 Hd3 Hn4 Hd4 Hst Hk Ht Hno).
Defined.

Example author_with_tempo_after_time :
  preamble empty_song (txt "John Newton  Time - 3/4  Tempo - 72")
  = Song None None (Some (txt "72")) (Some (txt "John Newton  Time - 3/4"))
         (Some (txt "3/4")) None [] [] (txt "pdf").
Proof. vm_compute. reflexivity. Qed.

(** ** Chord lines and lyric lines in a row *)

Lemma step_chord_line (st : scan) (line : str) :
  truthy (ccli (the_song st)) = false ->
  superscript_line st = None ->
  chord_like_line line ->
  step st line
  = Ok (Scan (the_song st)
             (if truthy (section_name st) then section_name st
              else Some (txt "VERSE 1"))
             (section_lines st) (Some (rstrip line)) None).
Proof.
  intros Hc Hs (H1 & H2 & H3). unfold step.
  rewrite Hc, H1, H2, H3. cbn [bind]. now rewrite Hs.
Qed.

(** X19.  Only one chord line waits at a time: of two chord lines in a
    row, with no superscript line pending, the first leaves no trace, the
    scan is in the state that the second alone would give. *)
Theorem second_chord_line_replaces_first (st : scan) (first second : str) :
  truthy (ccli (the_song st)) = false ->
  superscript_line st = None ->
  chord_like_line first ->
  chord_like_line second ->
  scan_lines st [first; second] = step st second
  /\ exists st2,
       step st second = Ok st2
       /\ chord_line st2 = Some (rstrip second)
       /\ section_lines st2 = section_lines st
       /\ the_song st2 = the_song st.
Proof.
  intros Hc Hs H1 H2. cbn [scan_lines].
  rewrite (step_chord_line st Hc Hs H1). cbn [bind].
  rewrite (step_chord_line st Hc Hs H2).
  rewrite step_chord_line; cbn [the_song superscript_line]; auto.
  cbn [bind section_name section_lines]. split.
  - destruct (section_name st) as [[|c n]|]; reflexivity.
  - eexists. split; [reflexivity|]. now cbn.
Qed.

Lemma second_chord_line_replaces_first_witness :
  truthy (ccli (the_song start)) = false
  /\ superscript_line start = None
  /\ chord_like_line (txt "C  G")
  /\ chord_like_line (txt "Am  F ")
  /\ scan_lines start [txt "C  G"; txt "Am  F "] = step start (txt "Am  F ")
  /\ exists st2,
       step start (txt "Am  F ") = Ok st2
       /\ chord_line st2 = Some (rstrip (txt "Am  F "))
       /\ section_lines st2 = section_lines start
       /\ the_song st2 = the_song start.
Proof.
  assert (H1 : chord_like_line (txt "C  G"))
    by (repeat split; vm_compute; reflexivity).
  assert (H2 : chord_like_line (txt "Am  F "))
    by (repeat split; vm_compute; reflexivity).
  split; [reflexivity|]. split; [reflexivity|].
  split; [exact H1|]. split; [exact H2|].
  exact (@second_chord_line_replaces_first start (txt "C  G") (txt "Am  F ")
           eq_refl eq_refl H1 H2).
Defined.

Lemma step_lyric_line (st : scan) (line : str) :
  truthy (ccli (the_song st)) = false ->
  truthy (section_name st) = true ->
  lyric_like line ->
  step st line
  = Ok (Scan (the_song st) (section_name st)
             (section_lines st ++ [(chord_line st, Some (rstrip line))])
             None (superscript_line st)).
Proof.
  intros Hc Hn (H1 & H2 & H3 & H4). unfold step.
  rewrite Hc, H1, H2, H3. cbn [bind]. now rewrite Hn, H4.
Qed.

Lemma scan_lyric_lines (lines : list str) :
  Forall lyric_like lines ->
  forall st,
    truthy (ccli (the_song st)) = false ->
    truthy (section_name st) = true ->
    scan_lines st lines
    = Ok (Scan (the_song st) (section_name st)
               (section_lines st ++ lyric_pairs (chord_line st) lines)
               (match lines with [] => chord_line st | _ :: _ => None end)
               (superscript_line st)).
Proof.
  induction 1 as [|line lines Hl _ IH]; intros st Hc Hn;
    cbn [scan_lines lyric_pairs].
  - rewrite app_nil_r. now destruct st.
  - rewrite (step_lyric_line st Hc Hn Hl). cbn [bind].
    rewrite IH by assumption.
    cbn [the_song section_name section_lines chord_line superscript_line].
    rewrite <- app_assoc. cbn [app]. now destruct lines.
Qed.

(** X20.  Inside a section, lyric lines in a row are stored in their
    order, each without its trailing white space: the chord line that waits
    is paired with the first of them, and the others are stored without a
    chord line.  Nothing else of the state changes. *)
Theorem lyric_lines_are_stored (st : scan) (lines : list str) :
  truthy (ccli (the_song st)) = false ->
  truthy (section_name st) = true ->
  Forall lyric_like lines ->
  scan_lines st lines
  = Ok (Scan (the_song st) (section_name st)
             (section_lines st ++ lyric_pairs (chord_line st) lines)
             (match lines with [] => chord_line st | _ :: _ => None end)
             (superscript_line st)).
Proof. intros Hc Hn H. now apply scan_lyric_lines. Qed.

Lemma lyric_lines_are_stored_witness :
  let st := Scan empty_song (Some (txt "Verse 1")) [] (Some (txt "C  G"))
                 None in
  let lines := [txt "Amazing grace "; txt "how sweet"] in
  truthy (ccli (the_song st)) = false
  /\ truthy (section_name st) = true
  /\ Forall lyric_like lines
  /\ scan_lines st lines
     = Ok (Scan (the_song st) (section_name st)
                (section_lines st ++ lyric_pairs (chord_line st) lines)
                (match lines with [] => chord_line st | _ :: _ => None end)
                (superscript_line st)).
Proof.
  intros st lines.
  assert (H : Forall lyric_like lines).
  { unfold lines. repeat (apply Forall_cons || apply Forall_nil);
      repeat split; vm_compute; reflexivity. }
  split; [reflexivity|]. split; [reflexivity|]. split; [exact H|].
  exact (@lyric_lines_are_stored st lines eq_refl eq_refl H).
Defined.

Lemma squeeze_spaces_idempotent_witness :
  squeeze_spaces (txt "a       b") 0 = txt "a" ++ txt "    b"
  /\ startswith (txt "    b") (repeat SPACE 5) = false.
Proof.
  assert (E : squeeze_spaces (txt "a       b") 0 = txt "a" ++ txt "    b")
    by reflexivity.
  split; [exact E|].
  exact (proj2 (squeeze_spaces_idempotent (txt "a       b")) _ _ E).
Defined.

Lemma no_token_iff_blank_witness :
  forallb is_blank (txt "   ") = true /\ tokenise_chords (txt "   ") = [].
Proof.
  split; [reflexivity|].
  exact (proj2 (no_token_iff_blank (txt "   ")) eq_refl).
Defined.
